(** * MessageEmojiCache: the native caching engine (native.ts)

    A shallow embedding of [src/userplugins/messageEmojiCache/native.ts]:
    the name sanitizer, the path and URL builders, the single-asset cache
    operation [cacheEmoji], the batch coordinator [cacheEmojis] and the
    bootstrap scan [initCache], together with the properties of the
    engine that the specification states.

    JavaScript strings are sequences of UTF-16 code units; they are
    modelled as [list N].  The process-wide [Set<string>] of cached IDs is
    a [gset].  The filesystem, the network and Node's [path] module are
    the host of the program; they are an interface ([Host]) with one
    simulated instance ([Sim]) used to run the code on concrete disks. *)

From Stdlib Require Import NArith Ascii String.
From Stdlib Require DecimalN.
From stdpp Require Import base list gmap.

#[local] Set Warnings "-clear-no-such-hyp".

Local Open Scope N_scope.

(** ** JavaScript strings *)

Abbreviation jsstring := (list N).

(** The code units of an ASCII literal. *)
Fixpoint js (s : string) : jsstring :=
  match s with
  | EmptyString => []
  | String a r => N_of_ascii a :: js r
  end.

Module Chr.
Definition dquote : N := 34.
Definition dollar : N := 36.
Definition amp : N := 38.
Definition squote : N := 39.
Definition star : N := 42.
Definition hyphen : N := 45.
Definition dot : N := 46.
Definition slash : N := 47.
Definition colon : N := 58.
Definition lt : N := 60.
Definition gt : N := 62.
Definition question : N := 63.
Definition backslash : N := 92.
Definition underscore : N := 95.
Definition backtick : N := 96.
Definition pipe : N := 124.
Definition tilde : N := 126.
End Chr.

(** [\d] without the unicode flag: the ASCII digits. *)
Definition is_digit (c : N) : bool := (48 <=? c) && (c <=? 57).

Definition is_dot (c : N) : bool := c =? Chr.dot.

(** The character class of [UNSAFE_FILENAME_CHARS]: the nine punctuation
    characters less-than, greater-than, colon, double quote, slash,
    backslash, pipe, question mark, star, and the range [\x00-\x1f]. *)
Definition is_unsafe (c : N) : bool :=
  (c =? Chr.lt) || (c =? Chr.gt) || (c =? Chr.colon) || (c =? Chr.dquote)
  || (c =? Chr.slash) || (c =? Chr.backslash) || (c =? Chr.pipe)
  || (c =? Chr.question) || (c =? Chr.star) || (c <=? 31).

(** What [String.prototype.trim] removes: ECMAScript WhiteSpace
    (TAB, VT, FF, SP, NBSP, ZWNBSP and the other space separators) and
    LineTerminator (LF, CR, LS, PS). *)
Definition is_space (c : N) : bool :=
  ((9 <=? c) && (c <=? 13)) || (c =? 32) || (c =? 160) || (c =? 5760)
  || ((8192 <=? c) && (c <=? 8202)) || (c =? 8232) || (c =? 8233)
  || (c =? 8239) || (c =? 8287) || (c =? 12288) || (c =? 65279).

(** Removal of the longest prefix made of characters in [p]. *)
Fixpoint lstrip (p : N -> bool) (s : jsstring) : jsstring :=
  match s with
  | [] => []
  | c :: t => if p c then lstrip p t else c :: t
  end.

(** Removal of the longest suffix made of characters in [p].  The scan
    goes left to right and cuts at the first position from which only
    [p]-characters remain: this is how a pattern [p+$] finds its leftmost
    match, the whole trailing run. *)
Fixpoint rstrip (p : N -> bool) (s : jsstring) : jsstring :=
  match s with
  | [] => []
  | c :: t => if forallb p (c :: t) then [] else c :: rstrip p t
  end.

(** [name.replace(UNSAFE_FILENAME_CHARS, underscore)]: the pattern has
    the global flag and matches one character at a time. *)
Definition replace_unsafe (s : jsstring) : jsstring :=
  map (fun c => if is_unsafe c then Chr.underscore else c) s.

(** [s.replace(/\.+$/, empty)]: the first match of the pattern, the
    trailing run of dots, is replaced by the empty string. *)
Definition strip_trailing_dots (s : jsstring) : jsstring := rstrip is_dot s.

(** [s.trim()]. *)
Definition trim (s : jsstring) : jsstring := rstrip is_space (lstrip is_space s).

(** [a || b] on strings: the empty string is falsy. *)
Definition or_else (a b : jsstring) : jsstring :=
  match a with
  | [] => b
  | _ :: _ => a
  end.

(** Sanitize a string for use as a directory or file name. *)
Definition sanitizeName (name : jsstring) : jsstring :=
  or_else (trim (strip_trailing_dots (replace_unsafe name))) (js "unknown").

(** The file name [cacheEmoji] builds:
    [`${sanitizeName(emojiName)}-${emojiId}.png`]. *)
Definition emojiFileName (emojiName emojiId : jsstring) : jsstring :=
  sanitizeName emojiName ++ js "-" ++ emojiId ++ js ".png".

(** ** The bootstrap pattern [/-(\d+)\.png$/] *)

(** The longest prefix made of characters in [p]. *)
Fixpoint lspan (p : N -> bool) (s : jsstring) : jsstring :=
  match s with
  | [] => []
  | c :: t => if p c then c :: lspan p t else []
  end.

(** The pattern tried at the head of [s]: a hyphen, the greedy run of
    digits (a shorter run is followed by a digit, never by the dot, so
    backtracking cannot succeed), then [.png] and the end of input.  The
    result is capture group 1. *)
Definition match_id_here (s : jsstring) : option jsstring :=
  match s with
  | c :: r =>
      if (c =? Chr.hyphen)
         && negb (bool_decide (lspan is_digit r = []))
         && bool_decide (lstrip is_digit r = js ".png")
      then Some (lspan is_digit r) else None
  | [] => None
  end.

(** [file.match(/-(\d+)\.png$/)]: the leftmost start position at which
    the pattern matches; [None] is JavaScript's [null]. *)
Fixpoint match_id (file : jsstring) : option jsstring :=
  match match_id_here file with
  | Some d => Some d
  | None =>
      match file with
      | [] => None
      | _ :: t => match_id t
      end
  end.

(** ** Paths, URLs and numbers *)

Definition EMOJI_CDN_BASE : jsstring := js "https://cdn.discordapp.com/emojis".

Fixpoint uint_digits (d : Decimal.uint) : jsstring :=
  match d with
  | Decimal.Nil => []
  | Decimal.D0 r => 48 :: uint_digits r
  | Decimal.D1 r => 49 :: uint_digits r
  | Decimal.D2 r => 50 :: uint_digits r
  | Decimal.D3 r => 51 :: uint_digits r
  | Decimal.D4 r => 52 :: uint_digits r
  | Decimal.D5 r => 53 :: uint_digits r
  | Decimal.D6 r => 54 :: uint_digits r
  | Decimal.D7 r => 55 :: uint_digits r
  | Decimal.D8 r => 56 :: uint_digits r
  | Decimal.D9 r => 57 :: uint_digits r
  end.

(** A size in a template literal.  The sizes are the pixel counts of the
    plugin's settings (48 to 256): natural numbers, printed in decimal. *)
Definition number_to_string (n : N) : jsstring := uint_digits (N.to_uint n).

(** Build the CDN URL for a given emoji as PNG. *)
Definition buildEmojiUrl (emojiId : jsstring) (size : N) : jsstring :=
  EMOJI_CDN_BASE ++ js "/" ++ emojiId ++ js ".png?size="
    ++ number_to_string size ++ js "&quality=lossless".

(** The expansion of a replacement string (GetSubstitution) for a pattern
    without capture groups: dollar-dollar is a dollar sign, dollar-ampersand
    the matched text, dollar-backtick the text before the match and
    dollar-quote the text after it; every other character stands for
    itself. *)
Fixpoint substitution (matched before after repl : jsstring) : jsstring :=
  match repl with
  | [] => []
  | c :: r =>
      match r with
      | d :: r' =>
          if (c =? Chr.dollar) && (d =? Chr.dollar)
          then Chr.dollar :: substitution matched before after r'
          else if (c =? Chr.dollar) && (d =? Chr.amp)
          then matched ++ substitution matched before after r'
          else if (c =? Chr.dollar) && (d =? Chr.backtick)
          then before ++ substitution matched before after r'
          else if (c =? Chr.dollar) && (d =? Chr.squote)
          then after ++ substitution matched before after r'
          else c :: substitution matched before after r
      | [] => [c]
      end
  end.

(** [customDir.replace(/^~/, home)]. *)
Definition replace_leading_tilde (s home : jsstring) : jsstring :=
  match s with
  | c :: t =>
      if c =? Chr.tilde then substitution [Chr.tilde] [] t home ++ t else s
  | [] => []
  end.

(** ** The host: filesystem, network, path module *)

(** The result of a call that may throw. *)
Inductive outcome (E A : Type) : Type :=
  | Ret (a : A)
  | Throw (e : E).
Arguments Ret {E A} a.
Arguments Throw {E A} e.

(** A directory entry, as [readdirSync] returns it with [withFileTypes]. *)
Record Dirent := mkDirent { name : jsstring; isDirectory : bool }.

Abbreviation Buffer := (list Byte.byte).

(** What native.ts imports: [DATA_DIR], [process.env.HOME], [path.join],
    the synchronous calls of [original-fs] and [fetchBuffer].  [World] is
    the state of the disk and of the network, [Exn] the values that the
    calls throw.  Existence checks and directory listings read the world;
    [mkdirSync] (always called with [recursive: true]), [writeFileSync]
    and [fetchBuffer] may change it, also when they throw.  Without
    [withFileTypes] a listing is the names of the same entries.
    [path.join] never returns the empty string (an empty join is the
    current directory). *)
Class Host := {
  World : Type;
  Exn : Type;
  DATA_DIR : jsstring;
  HOME : option jsstring;
  join : list jsstring -> jsstring;
  join_nonempty : forall segs, join segs <> [];
  host_exists : jsstring -> World -> bool;
  host_mkdir : jsstring -> World -> outcome Exn unit * World;
  host_write : jsstring -> Buffer -> World -> outcome Exn unit * World;
  host_readdir : jsstring -> World -> outcome Exn (list Dirent);
  host_fetch : jsstring -> World -> outcome Exn Buffer * World;
}.

(** ** The engine *)

Section Engine.
Context {node : Host}.

(** The effects of a run, oldest first. *)
Inductive Event :=
  | EvMkdir (dirPath : jsstring)
  | EvFetch (url : jsstring)
  | EvWrite (filePath : jsstring) (data : Buffer)
  | EvConsoleError (msg : jsstring) (error : Exn).

(** The module-level set [cachedEmojiIds], the world and the effects
    performed so far. *)
Record State := mkState {
  cachedEmojiIds : gset jsstring;
  world : World;
  trace : list Event;
}.

(** Computations: state passing, with exceptions that keep the state
    reached when they are thrown. *)
Definition M (A : Type) : Type := State -> outcome Exn A * State.

Definition ret {A} (a : A) : M A := fun st => (Ret a, st).

Definition bind {A B} (c : M A) (k : A -> M B) : M B :=
  fun st =>
    match c st with
    | (Ret a, st') => k a st'
    | (Throw e, st') => (Throw e, st')
    end.

(** [try { body } catch (error) { handler }] *)
Definition try_catch {A} (body : M A) (handler : Exn -> M A) : M A :=
  fun st =>
    match body st with
    | (Ret a, st') => (Ret a, st')
    | (Throw e, st') => handler e st'
    end.

Notation "'let*' x ':=' c 'in' k" := (bind c (fun x => k))
  (at level 10, x binder, c at level 100, k at level 200).
Notation "c ';;' k" := (bind c (fun _ => k))
  (at level 100, k at level 200, right associativity).

Definition effect {A} (ev : Event) (r : outcome Exn A * World) (st : State)
  : outcome Exn A * State :=
  (fst r, mkState (cachedEmojiIds st) (snd r) (trace st ++ [ev])).

Definition has (emojiId : jsstring) : M bool :=
  fun st => (Ret (bool_decide (emojiId ∈ cachedEmojiIds st)), st).

Definition add (emojiId : jsstring) : M unit :=
  fun st =>
    (Ret tt, mkState ({[emojiId]} ∪ cachedEmojiIds st) (world st) (trace st)).

Definition existsSync (p : jsstring) : M bool :=
  fun st => (Ret (host_exists p (world st)), st).

Definition mkdirSync (dirPath : jsstring) : M unit :=
  fun st => effect (EvMkdir dirPath) (host_mkdir dirPath (world st)) st.

Definition writeFileSync (filePath : jsstring) (data : Buffer) : M unit :=
  fun st => effect (EvWrite filePath data) (host_write filePath data (world st)) st.

Definition fetchBuffer (url : jsstring) : M Buffer :=
  fun st => effect (EvFetch url) (host_fetch url (world st)) st.

Definition readdirSync_withFileTypes (dirPath : jsstring) : M (list Dirent) :=
  fun st => (host_readdir dirPath (world st), st).

Definition readdirSync (dirPath : jsstring) : M (list jsstring) :=
  let* entries := readdirSync_withFileTypes dirPath in ret (map name entries).

Definition console_error (msg : jsstring) (error : Exn) : M unit :=
  fun st =>
    (Ret tt, mkState (cachedEmojiIds st) (world st)
               (trace st ++ [EvConsoleError msg error])).

(** Resolve the base emote cache directory, defaulting to
    DATA_DIR/emotes.  [None] is an omitted [customDir]. *)
Definition resolveBaseDir (customDir : option jsstring) : jsstring :=
  match customDir with
  | Some dir =>
      if negb (bool_decide (dir = [])) && (0 <? length (trim dir))%nat
      then replace_leading_tilde dir (default [] HOME)
      else join [DATA_DIR; js "emotes"]
  | None => join [DATA_DIR; js "emotes"]
  end.

(** Ensure a directory exists, creating it recursively if needed. *)
Definition ensureDir (dirPath : jsstring) : M unit :=
  let* present := existsSync dirPath in
  if negb present then mkdirSync dirPath else ret tt.

Record CacheResult := mkResult { cached : bool; path : jsstring }.

(** Download and cache a single emoji to disk.  [size] is [None] when
    the argument is omitted or undefined; its default is 128. *)
Definition cacheEmoji (emojiId emojiName guildName : jsstring)
    (customDir : option jsstring) (size : option N) : M CacheResult :=
  let size := default 128 size in
  let* known := has emojiId in
  if known then ret (mkResult false [])
  else
    let baseDir := resolveBaseDir customDir in
    let safeGuildName := sanitizeName guildName in
    let guildDir := join [baseDir; safeGuildName] in
    let fileName := emojiFileName emojiName emojiId in
    let filePath := join [guildDir; fileName] in
    let* present := existsSync filePath in
    if present then
      add emojiId ;;
      ret (mkResult false filePath)
    else
      try_catch
        (ensureDir guildDir ;;
         let url := buildEmojiUrl emojiId size in
         let* buffer := fetchBuffer url in
         writeFileSync filePath buffer ;;
         add emojiId ;;
         ret (mkResult true filePath))
        (fun error =>
           console_error
             (js "[MessageEmojiCache] Failed to cache emoji " ++ emojiName
                ++ js " (" ++ emojiId ++ js "):") error ;;
           ret (mkResult false [])).

(** The directory and the file path that [cacheEmoji] computes. *)
Definition guildDirOf (customDir : option jsstring) (guildName : jsstring)
  : jsstring :=
  join [resolveBaseDir customDir; sanitizeName guildName].

Definition filePathOf (customDir : option jsstring)
    (guildName emojiName emojiId : jsstring) : jsstring :=
  join [guildDirOf customDir guildName; emojiFileName emojiName emojiId].

(** The three calls of the [try] block that can throw, in order: the
    first one that throws ends the download. *)
Inductive download_fails (guildDir url filePath : jsstring) (st : State)
  : Prop :=
  | mkdir_throws e st1 :
      ensureDir guildDir st = (Throw e, st1) ->
      download_fails guildDir url filePath st
  | fetch_throws e st1 st2 :
      ensureDir guildDir st = (Ret tt, st1) ->
      fetchBuffer url st1 = (Throw e, st2) ->
      download_fails guildDir url filePath st
  | write_throws e st1 buffer st2 st3 :
      ensureDir guildDir st = (Ret tt, st1) ->
      fetchBuffer url st1 = (Ret buffer, st2) ->
      writeFileSync filePath buffer st2 = (Throw e, st3) ->
      download_fails guildDir url filePath st.

(** One element of the array that [cacheEmojis] receives. *)
Record Emoji := mkEmoji {
  emoji_id : jsstring;
  emoji_name : jsstring;
  emoji_guildName : jsstring;
}.

(** The [for ... of] loop of [cacheEmojis], with its counter. *)
Fixpoint cacheEmojis_loop (emojis : list Emoji) (customDir : option jsstring)
    (size : option N) (newlyCached : nat) : M nat :=
  match emojis with
  | [] => ret newlyCached
  | emoji :: rest =>
      let* result :=
        cacheEmoji (emoji_id emoji) (emoji_name emoji) (emoji_guildName emoji)
          customDir size in
      cacheEmojis_loop rest customDir size
        (if cached result then S newlyCached else newlyCached)
  end.

(** Batch-cache multiple emojis from a single message. *)
Definition cacheEmojis (emojis : list Emoji) (customDir : option jsstring)
    (size : option N) : M nat :=
  cacheEmojis_loop emojis customDir size 0%nat.

(** The batch as the specification describes it: one call of the
    single-asset operation per reference, in the given order, each on
    the state left by the previous one; the results are collected in
    order. *)
Fixpoint run_each (emojis : list Emoji) (customDir : option jsstring)
    (size : option N) (st : State) : list (outcome Exn CacheResult) * State :=
  match emojis with
  | [] => ([], st)
  | emoji :: rest =>
      let '(r, st1) :=
        cacheEmoji (emoji_id emoji) (emoji_name emoji) (emoji_guildName emoji)
          customDir size st in
      let '(rs, st2) := run_each rest customDir size st1 in
      (r :: rs, st2)
  end.

Definition reported_cached (r : outcome Exn CacheResult) : bool :=
  match r with
  | Ret result => cached result
  | Throw _ => false
  end.

(** The inner loop of [initCache] over the files of one guild
    directory.  [count] is the local variable of [initCache]. *)
Fixpoint scan_files (files : list jsstring) (count : nat) (st : State)
  : nat * State :=
  match files with
  | [] => (count, st)
  | file :: rest =>
      match match_id file with
      | Some emojiId => scan_files rest (S count) (snd (add emojiId st))
      | None => scan_files rest count st
      end
  end.

(** The outer loop.  A listing that throws leaves the loop with the
    count and the state reached so far. *)
Fixpoint scan_guilds (baseDir : jsstring) (guildDirs : list jsstring)
    (count : nat) (st : State) : option Exn * nat * State :=
  match guildDirs with
  | [] => (None, count, st)
  | guildDir :: rest =>
      let fullGuildDir := join [baseDir; guildDir] in
      match readdirSync fullGuildDir st with
      | (Throw e, st') => (Some e, count, st')
      | (Ret files, st') =>
          let '(count', st'') := scan_files files count st' in
          scan_guilds baseDir rest count' st''
      end
  end.

(** The body of the [try] block of [initCache]. *)
Definition scan (baseDir : jsstring) (count : nat) (st : State)
  : option Exn * nat * State :=
  match readdirSync_withFileTypes baseDir st with
  | (Throw e, st') => (Some e, count, st')
  | (Ret entries, st') =>
      let guildDirs := map name (filter (fun d => isDirectory d = true) entries) in
      scan_guilds baseDir guildDirs count st'
  end.

(** Initialize the cache directory and populate the in-memory set from
    existing files on disk.  [ensureDir] runs before the [try] block. *)
Definition initCache (customDir : option jsstring) : M nat :=
  fun st =>
    let baseDir := resolveBaseDir customDir in
    match ensureDir baseDir st with
    | (Throw e, st1) => (Throw e, st1)
    | (Ret _, st1) =>
        match scan baseDir 0%nat st1 with
        | (Some error, count, st2) =>
            (Ret count,
             snd (console_error
                    (js "[MessageEmojiCache] Failed to init cache from disk:")
                    error st2))
        | (None, count, st2) => (Ret count, st2)
        end
    end.

End Engine.

(** ** What the scan finds, as a function of the disk *)

Section ScanSpec.
Context {node : Host}.

(** The IDs captured from the file names of the guild directories, in
    listing order, up to the first listing that throws. *)
Fixpoint guild_ids (baseDir : jsstring) (guildDirs : list jsstring) (w : World)
  : list jsstring :=
  match guildDirs with
  | [] => []
  | guildDir :: rest =>
      match host_readdir (join [baseDir; guildDir]) w with
      | Throw _ => []
      | Ret entries =>
          omap match_id (map name entries) ++ guild_ids baseDir rest w
      end
  end.

Definition scanned_ids (baseDir : jsstring) (w : World) : list jsstring :=
  match host_readdir baseDir w with
  | Throw _ => []
  | Ret entries =>
      guild_ids baseDir
        (map name (filter (fun d => isDirectory d = true) entries)) w
  end.

End ScanSpec.

(** ** A simulated host

    A POSIX disk as an association list from normalized paths to nodes, a
    network that serves the listed URLs, and a list of paths on which
    every operation is refused. *)

Module Sim.

Definition split_on (sep : N) (s : jsstring) : list jsstring :=
  let '(cur, parts) :=
    fold_left (fun '(cur, parts) c =>
                 if c =? sep then ([], reverse cur :: parts) else (c :: cur, parts))
              s ([], []) in
  reverse (reverse cur :: parts).

Fixpoint join_with (sep : jsstring) (parts : list jsstring) : jsstring :=
  match parts with
  | [] => []
  | [p] => p
  | p :: rest => p ++ sep ++ join_with sep rest
  end.

(** One segment of [normalizeString]; [stack] is the result so far,
    last segment first. *)
Definition push_segment (allowAboveRoot : bool) (stack : list jsstring)
    (seg : jsstring) : list jsstring :=
  if bool_decide (seg = []) || bool_decide (seg = js ".") then stack
  else if bool_decide (seg = js "..") then
    match stack with
    | top :: below =>
        if bool_decide (top = js "..")
        then (if allowAboveRoot then seg :: stack else stack)
        else below
    | [] => if allowAboveRoot then [seg] else []
    end
  else seg :: stack.

Definition normalizeString (p : jsstring) (allowAboveRoot : bool) : jsstring :=
  join_with (js "/")
    (reverse (fold_left (push_segment allowAboveRoot) (split_on Chr.slash p) [])).

(** [path.posix.normalize] *)
Definition normalize (p : jsstring) : jsstring :=
  match p with
  | [] => js "."
  | c :: _ =>
      let isAbsolute := c =? Chr.slash in
      let trailingSeparator := bool_decide (last p = Some Chr.slash) in
      match normalizeString p (negb isAbsolute) with
      | [] =>
          if isAbsolute then js "/"
          else if trailingSeparator then js "./" else js "."
      | q =>
          let q := if trailingSeparator then q ++ js "/" else q in
          if isAbsolute then js "/" ++ q else q
      end
  end.

(** [path.posix.join] *)
Definition join (segs : list jsstring) : jsstring :=
  normalize (join_with (js "/") (filter (fun s => s <> []) segs)).

Inductive Node := File (data : Buffer) | Dir.

Inductive Errno := ENOENT | ENOTDIR | EISDIR | EACCES | ENETWORK.

Record Disk := mkDisk {
  nodes : list (jsstring * Node);
  locked : list jsstring;
  net : list (jsstring * Buffer);
}.

Fixpoint assoc {A} (k : jsstring) (l : list (jsstring * A)) : option A :=
  match l with
  | [] => None
  | (k', v) :: rest => if bool_decide (k = k') then Some v else assoc k rest
  end.

Fixpoint assoc_set {A} (k : jsstring) (v : A) (l : list (jsstring * A))
  : list (jsstring * A) :=
  match l with
  | [] => [(k, v)]
  | (k', v') :: rest =>
      if bool_decide (k = k') then (k, v) :: rest else (k', v') :: assoc_set k v rest
  end.

(** A node is named without its trailing separator. *)
Definition key (p : jsstring) : jsstring :=
  let q := normalize p in
  match rstrip (fun c => c =? Chr.slash) q with
  | [] => q
  | k => k
  end.

Definition dirname (p : jsstring) : jsstring :=
  match reverse (split_on Chr.slash p) with
  | _ :: (_ :: _) as parents =>
      match join_with (js "/") (reverse parents) with
      | [] => js "/"
      | d => d
      end
  | _ => js "."
  end.

Definition basename (p : jsstring) : jsstring :=
  default [] (last (split_on Chr.slash p)).

(** The path and its ancestors, outermost first. *)
Fixpoint ancestors_from (seen : jsstring) (s : jsstring) : list jsstring :=
  match s with
  | [] => [reverse seen]
  | c :: t =>
      (if (c =? Chr.slash) && negb (bool_decide (seen = []))
       then [reverse seen] else [])
      ++ ancestors_from (c :: seen) t
  end.

Definition ancestors (p : jsstring) : list jsstring := ancestors_from [] p.

Definition is_locked (p : jsstring) (d : Disk) : bool :=
  bool_decide (p ∈ locked d).

Definition is_file (p : jsstring) (d : Disk) : bool :=
  match assoc p (nodes d) with
  | Some (File _) => true
  | _ => false
  end.

Definition is_dir (p : jsstring) (d : Disk) : bool :=
  match assoc p (nodes d) with
  | Some Dir => true
  | Some (File _) => false
  | None => bool_decide (p = js ".") || bool_decide (p = js "/")
  end.

Definition exists_ (p : jsstring) (d : Disk) : bool :=
  let p := key p in
  is_file p d || is_dir p d.

Definition mkdir (p : jsstring) (d : Disk) : outcome Errno unit * Disk :=
  let chain := ancestors (key p) in
  if existsb (fun a => is_locked a d) chain then (Throw EACCES, d)
  else if existsb (fun a => is_file a d) chain then (Throw ENOTDIR, d)
  else
    (Ret tt,
     mkDisk (fold_left (fun ns a => if is_dir a d then ns else ns ++ [(a, Dir)])
                       chain (nodes d))
            (locked d) (net d)).

Definition write (p : jsstring) (data : Buffer) (d : Disk)
  : outcome Errno unit * Disk :=
  let p := key p in
  if is_locked p d || is_locked (dirname p) d then (Throw EACCES, d)
  else if is_dir p d then (Throw EISDIR, d)
  else if is_file (dirname p) d then (Throw ENOTDIR, d)
  else if negb (is_dir (dirname p) d) then (Throw ENOENT, d)
  else (Ret tt, mkDisk (assoc_set p (File data) (nodes d)) (locked d) (net d)).

Definition readdir (p : jsstring) (d : Disk) : outcome Errno (list Dirent) :=
  let p := key p in
  if is_locked p d then Throw EACCES
  else if is_file p d then Throw ENOTDIR
  else if negb (is_dir p d) then Throw ENOENT
  else
    Ret (omap (fun '(k, n) =>
                 if bool_decide (dirname k = p)
                 then Some (mkDirent (basename k)
                              (match n with Dir => true | File _ => false end))
                 else None)
              (nodes d)).

Definition fetch (url : jsstring) (d : Disk) : outcome Errno Buffer * Disk :=
  match assoc url (net d) with
  | Some data => (Ret data, d)
  | None => (Throw ENETWORK, d)
  end.

Lemma join_nonempty (segs : list jsstring) : join segs <> [].
Proof.
  unfold join, normalize.
  destruct (join_with _ _) as [|c p]; [discriminate|].
  destruct (normalizeString _ _) as [|d q];
    repeat match goal with |- context [if ?b then _ else _] => destruct b end;
    discriminate.
Qed.

Definition host (dataDir : jsstring) (home : option jsstring) : Host :=
  Build_Host Disk Errno dataDir home join join_nonempty
    exists_ mkdir write readdir fetch.

End Sim.

(** ** Fixtures on the simulated host *)

Module Scenario.

Definition node : Host := Sim.host (js "/data") (Some (js "/home/user")).
#[local] Existing Instance node.

(** A disk with the given nodes, nothing locked, and a network that
    serves the given URLs. *)
Definition state (ids : gset jsstring) (nodes : list (jsstring * Sim.Node))
    (locked : list jsstring) (served : list (jsstring * Buffer)) : State :=
  mkState ids (Sim.mkDisk nodes locked served) [].

Definition root : option jsstring := Some (js "root").

Definition png : Buffer := [Byte.x89; Byte.x50; Byte.x4e; Byte.x47].

(** The call of the end-to-end example. *)
Definition pog : M CacheResult :=
  cacheEmoji (js "10") (js "Pog") (js "My Server") root (Some 128).

(** An empty tracker, an empty root and a network that serves the
    emoji. *)
Definition empty_root (data : Buffer) : State :=
  state ∅ [(js "root", Sim.Dir)] [] [(buildEmojiUrl (js "10") 128, data)].

(** The same disk with a network that serves nothing. *)
Definition no_network : State := state ∅ [(js "root", Sim.Dir)] [] [].

(** The emoji is on disk and not tracked. *)
Definition on_disk : State :=
  state ∅ [(js "root", Sim.Dir); (js "root/My Server", Sim.Dir);
           (js "root/My Server/Pog-10.png", Sim.File png)] [] [].

(** Three guild directories; the listing of the second one is refused. *)
Definition partial : State :=
  state ∅ [(js "root", Sim.Dir);
           (js "root/A", Sim.Dir); (js "root/A/Foo-123.png", Sim.File png);
           (js "root/B", Sim.Dir); (js "root/B/bar-456.png", Sim.File png);
           (js "root/C", Sim.Dir); (js "root/C/baz-789.png", Sim.File png)]
        [js "root/B"] [].

(** The same ID under two guild directories, and a file without ID. *)
Definition twice : State :=
  state ∅ [(js "root", Sim.Dir);
           (js "root/A", Sim.Dir); (js "root/A/Pog-10.png", Sim.File png);
           (js "root/B", Sim.Dir); (js "root/B/pog-10.png", Sim.File png);
           (js "root/B/weird.png", Sim.File png)] [] [].

(** The default directory under a data directory that refuses writes. *)
Definition read_only : State := state ∅ [(js "/data", Sim.Dir)] [js "/data"] [].

(** A batch of three references to one guild; the second ID is the
    tracked one. *)
Definition batch : list Emoji :=
  [mkEmoji (js "1") (js "one") (js "G");
   mkEmoji (js "2") (js "two") (js "G");
   mkEmoji (js "3") (js "three") (js "G")].

Definition second_tracked (d1 d3 : Buffer) : State :=
  state {[js "2"]} [(js "root", Sim.Dir)] []
    [(buildEmojiUrl (js "1") 128, d1); (buildEmojiUrl (js "3") 128, d3)].

End Scenario.

(** ** The renderer side (index.ts) *)

(** [\w] without the unicode and ignore-case flags: ASCII letters,
    digits and the underscore. *)
Definition is_word (c : N) : bool :=
  is_digit c || ((65 <=? c) && (c <=? 90)) || ((97 <=? c) && (c <=? 122))
  || (c =? Chr.underscore).

(** One literal character of a pattern. *)
Definition expect (c : N) (s : jsstring) : option jsstring :=
  match s with
  | x :: r => if x =? c then Some r else None
  | [] => None
  end.

(** A greedy run [p+]: the longest run, which must not be empty, and what
    follows it. *)
Definition run1 (p : N -> bool) (s : jsstring) : option (jsstring * jsstring) :=
  match lspan p s with
  | [] => None
  | run => Some (run, lstrip p s)
  end.

(** [CUSTOM_EMOJI_REGEX], the pattern [<a?:(\w+)(?:~\d+)?:(\d+)>], tried
    at the head of [s]; the result is the two capture groups and the
    length of the match.  Every greedy item is followed by a character
    outside its class (a colon after the optional letter, a tilde or a
    colon after the word run, a colon or a closing bracket after a digit
    run), so the longest run is the only one that can succeed and the
    optional items are taken whenever they are present. *)
Definition match_emoji_here (s : jsstring) : option (jsstring * jsstring * nat) :=
  r0 ← expect Chr.lt s;
  let r1 := default r0 (expect 97 r0) in
  r2 ← expect Chr.colon r1;
  '(name, r3) ← run1 is_word r2;
  r4 ← match expect Chr.tilde r3 with
       | Some r => snd <$> run1 is_digit r
       | None => Some r3
       end;
  r5 ← expect Chr.colon r4;
  '(id, r6) ← run1 is_digit r5;
  r7 ← expect Chr.gt r6;
  Some (name, id, (length s - length r7)%nat).

(** The [while] loop of [extractEmojisFromContent] over the global
    pattern.  [s] is the content from the current position on; [skip] is
    the number of characters left before [lastIndex] (a match moves
    [lastIndex] to its end, a failed attempt at a position moves on to the
    next position); [seen] and [emojis] are the two local variables. *)
Fixpoint extract_loop (guildName : jsstring) (s : jsstring) (skip : nat)
    (seen : gset jsstring) (emojis : list Emoji) : list Emoji :=
  match s with
  | [] => emojis
  | _ :: t =>
      match skip with
      | S k => extract_loop guildName t k seen emojis
      | O =>
          match match_emoji_here s with
          | Some (name, id, len) =>
              if bool_decide (id ∈ seen)
              then extract_loop guildName t (len - 1) seen emojis
              else extract_loop guildName t (len - 1) ({[id]} ∪ seen)
                     (emojis ++ [mkEmoji id name guildName])
          | None => extract_loop guildName t 0 seen emojis
          end
      end
  end.

(** Extract all custom emojis from a message's content. *)
Definition extractEmojisFromContent (content guildName : jsstring) : list Emoji :=
  extract_loop guildName content 0 ∅ [].

(** What the handlers read of a channel, a guild and a message. *)
Record Channel := mkChannel { guild_id : option jsstring }.
Record Guild := mkGuild { guild_name : jsstring }.
Record MessageJSON := mkMessage {
  message_type : N;
  message_state : option jsstring;
  message_content : jsstring;
}.

(** [settings.store]. *)
Record Settings := mkSettings { emoteCacheDir : jsstring; emojiSize : N }.

Section Plugin.
Context {node : Host}.

(** [ChannelStore.getChannel], [GuildStore.getGuild] and the two message
    types that the handler accepts. *)
Variable getChannel : jsstring -> option Channel.
Variable getGuild : jsstring -> option Guild.
Variable DEFAULT REPLY : N.

(** Resolve the guild name for a given channel ID.  A missing channel, a
    missing or empty [guild_id] and a missing guild give [None]. *)
Definition resolveGuildName (channelId : jsstring) : option jsstring :=
  match getChannel channelId with
  | None => None
  | Some channel =>
      match guild_id channel with
      | None => None
      | Some [] => None
      | Some guildId =>
          match getGuild guildId with
          | None => None
          | Some guild => Some (guild_name guild)
          end
      end
  end.

(** A line of the plugin's logger. *)
Inductive LogEntry :=
  | LogInfo (msg : jsstring)
  | LogError (msg : jsstring) (error : Exn).

(** The state of the native side and the lines logged so far. *)
Record Plugin := mkPlugin { native : State; logger : list LogEntry }.

Definition P (A : Type) : Type := Plugin -> outcome Exn A * Plugin.

Definition p_ret {A} (a : A) : P A := fun ps => (Ret a, ps).

Definition p_bind {A B} (c : P A) (k : A -> P B) : P B :=
  fun ps =>
    match c ps with
    | (Ret a, ps') => k a ps'
    | (Throw e, ps') => (Throw e, ps')
    end.

Definition p_try {A} (body : P A) (handler : Exn -> P A) : P A :=
  fun ps =>
    match body ps with
    | (Ret a, ps') => (Ret a, ps')
    | (Throw e, ps') => handler e ps'
    end.

(** A call of a native function through [Native]. *)
Definition invoke {A} (c : M A) : P A :=
  fun ps =>
    (fst (c (native ps)), mkPlugin (snd (c (native ps))) (logger ps)).

Definition logger_info (msg : jsstring) : P unit :=
  fun ps => (Ret tt, mkPlugin (native ps) (logger ps ++ [LogInfo msg])).

Definition logger_error (msg : jsstring) (error : Exn) : P unit :=
  fun ps => (Ret tt, mkPlugin (native ps) (logger ps ++ [LogError msg error])).

(** [settings.store.emoteCacheDir || undefined] *)
Definition cacheDirSetting (settings : Settings) : option jsstring :=
  match emoteCacheDir settings with
  | [] => None
  | dir => Some dir
  end.

(** [start()] *)
Definition start (settings : Settings) : P unit :=
  p_try
    (let dir := cacheDirSetting settings in
     p_bind (invoke (initCache dir)) (fun count =>
     logger_info (js "Initialized emoji cache with "
                    ++ number_to_string (N.of_nat count)
                    ++ js " existing emojis.")))
    (fun error => logger_error (js "Failed to initialize emoji cache:") error).

(** The [MESSAGE_CREATE] handler. *)
Definition MESSAGE_CREATE (settings : Settings) (optimistic : bool)
    (message : MessageJSON) (channelId : jsstring) : P unit :=
  if optimistic then p_ret tt
  else if negb (message_type message =? DEFAULT)
          && negb (message_type message =? REPLY) then p_ret tt
  else if bool_decide (message_state message = Some (js "SENDING")) then p_ret tt
  else
    match resolveGuildName channelId with
    | None | Some [] => p_ret tt
    | Some guildName =>
        let emojis :=
          match message_content message with
          | [] => []
          | content => extractEmojisFromContent content guildName
          end in
        match emojis with
        | [] => p_ret tt
        | _ :: _ =>
            p_try
              (let dir := cacheDirSetting settings in
               let size := emojiSize settings in
               p_bind (invoke (cacheEmojis emojis dir (Some size))) (fun cached =>
               if (0 <? cached)%nat
               then logger_info (js "Cached " ++ number_to_string (N.of_nat cached)
                                   ++ js " new emoji(s) from #" ++ channelId)
               else p_ret tt))
              (fun error => logger_error (js "Failed to cache emojis:") error)
        end
    end.

End Plugin.

(** The messages that the handler ignores. *)
Inductive ignored (getChannel : jsstring -> option Channel)
    (getGuild : jsstring -> option Guild) (DEFAULT REPLY : N)
    (optimistic : bool) (message : MessageJSON) (channelId : jsstring) : Prop :=
  | ignored_optimistic :
      optimistic = true ->
      ignored getChannel getGuild DEFAULT REPLY optimistic message channelId
  | ignored_type :
      message_type message <> DEFAULT -> message_type message <> REPLY ->
      ignored getChannel getGuild DEFAULT REPLY optimistic message channelId
  | ignored_sending :
      message_state message = Some (js "SENDING") ->
      ignored getChannel getGuild DEFAULT REPLY optimistic message channelId
  | ignored_unknown_channel :
      getChannel channelId = None ->
      ignored getChannel getGuild DEFAULT REPLY optimistic message channelId
  | ignored_direct_message channel :
      getChannel channelId = Some channel ->
      guild_id channel = None \/ guild_id channel = Some [] ->
      ignored getChannel getGuild DEFAULT REPLY optimistic message channelId
  | ignored_unknown_guild channel guildId :
      getChannel channelId = Some channel ->
      guild_id channel = Some guildId ->
      getGuild guildId = None ->
      ignored getChannel getGuild DEFAULT REPLY optimistic message channelId
  | ignored_unnamed_guild channel guildId :
      getChannel channelId = Some channel ->
      guild_id channel = Some guildId ->
      getGuild guildId = Some (mkGuild []) ->
      ignored getChannel getGuild DEFAULT REPLY optimistic message channelId
  | ignored_plain_text :
      (Chr.lt ∉ message_content message) ->
      ignored getChannel getGuild DEFAULT REPLY optimistic message channelId.

(** The text of a custom emoji in a message, static or animated. *)
Definition emoji_text (animated : bool) (name emojiId : jsstring) : jsstring :=
  js "<" ++ (if animated then js "a" else []) ++ js ":" ++ name ++ js ":"
    ++ emojiId ++ js ">".

(** ** Reading a trace *)

Section TraceSpec.
Context {node : Host}.

(** The effects on the host, as opposed to the lines on the console. *)
Definition is_io (ev : Event) : bool :=
  match ev with
  | EvConsoleError _ _ => false
  | _ => true
  end.

Definition io_events (evs : list Event) : list Event :=
  filter (fun ev => is_io ev = true) evs.

(** The number of results that report [cached = true]. *)
Definition count_cached (rs : list (outcome Exn CacheResult)) : nat :=
  length (filter (fun r => reported_cached r = true) rs).

(** The fetches and the writes of a trace. *)
Definition is_fetch_write (ev : Event) : bool :=
  match ev with
  | EvFetch _ | EvWrite _ _ => true
  | _ => false
  end.

Definition fetch_write_events (evs : list Event) : list Event :=
  filter (fun ev => is_fetch_write ev = true) evs.

(** How one reference of a batch is served in a given state: its ID is
    tracked ([None]), or it is new and is downloaded ([Some buffer]): the
    ID is not tracked, no file is at the computed path, and [ensureDir],
    the fetch (which returns [buffer]) and the write all return. *)
Inductive served (customDir : option jsstring) (size : option N)
    (emoji : Emoji) (st : State) : option Buffer -> State -> Prop :=
  | served_tracked :
      emoji_id emoji ∈ cachedEmojiIds st ->
      served customDir size emoji st None st
  | served_new buffer st1 st2 st3 :
      emoji_id emoji ∉ cachedEmojiIds st ->
      host_exists (filePathOf customDir (emoji_guildName emoji)
                     (emoji_name emoji) (emoji_id emoji)) (world st) = false ->
      ensureDir (guildDirOf customDir (emoji_guildName emoji)) st = (Ret tt, st1) ->
      fetchBuffer (buildEmojiUrl (emoji_id emoji) (default 128 size)) st1
        = (Ret buffer, st2) ->
      writeFileSync (filePathOf customDir (emoji_guildName emoji)
                       (emoji_name emoji) (emoji_id emoji)) buffer st2
        = (Ret tt, st3) ->
      served customDir size emoji st (Some buffer)
        (mkState ({[emoji_id emoji]} ∪ cachedEmojiIds st) (world st3) (trace st3)).

(** A batch whose references are each tracked or new when their turn
    comes, with the state that each one leaves to the next. *)
Inductive batch_served (customDir : option jsstring) (size : option N)
    : list Emoji -> State -> list (option Buffer) -> State -> Prop :=
  | batch_served_nil st : batch_served customDir size [] st [] st
  | batch_served_cons emoji rest st fate st1 fates st2 :
      served customDir size emoji st fate st1 ->
      batch_served customDir size rest st1 fates st2 ->
      batch_served customDir size (emoji :: rest) st (fate :: fates) st2.

(** The buffers of the references that were downloaded. *)
Definition downloaded (fates : list (option Buffer)) : list Buffer :=
  omap (fun fate => fate) fates.

(** The references that were found tracked. *)
Definition found_tracked (fates : list (option Buffer)) : list (option Buffer) :=
  filter (fun fate => fate = None) fates.

(** The fetches and the writes that a batch served in this way calls
    for: for each downloaded reference, in the order of the batch, the
    fetch of its URL and the write of the fetched bytes to its path. *)
Fixpoint expected_fetch_write (customDir : option jsstring) (size : option N)
    (emojis : list Emoji) (fates : list (option Buffer)) : list Event :=
  match emojis, fates with
  | emoji :: rest, Some buffer :: fates' =>
      EvFetch (buildEmojiUrl (emoji_id emoji) (default 128 size))
      :: EvWrite (filePathOf customDir (emoji_guildName emoji)
                    (emoji_name emoji) (emoji_id emoji)) buffer
      :: expected_fetch_write customDir size rest fates'
  | _ :: rest, None :: fates' => expected_fetch_write customDir size rest fates'
  | _, _ => []
  end.

(** What can happen between two calls: one of the three operations runs,
    with any arguments, or the disk and the network change on their
    own. *)
Inductive op_step : State -> State -> Prop :=
  | step_cacheEmoji emojiId emojiName guildName customDir size st :
      op_step st (snd (cacheEmoji emojiId emojiName guildName customDir size st))
  | step_cacheEmojis emojis customDir size st :
      op_step st (snd (cacheEmojis emojis customDir size st))
  | step_initCache customDir st :
      op_step st (snd (initCache customDir st))
  | step_world w st :
      op_step st (mkState (cachedEmojiIds st) w (trace st)).

(** A state reached from another one by any number of such steps. *)
Definition later : State -> State -> Prop := rtc op_step.

(** The world in which the fetch of [cacheEmoji] runs: the one left by
    [ensureDir]. *)
Definition world_after_ensureDir (dirPath : jsstring) (w : World) : World :=
  if host_exists dirPath w then w else snd (host_mkdir dirPath w).

(** The effects on the host that a download consists of: the creation of
    the guild directory when it does not exist, the fetch of the URL, and
    the write to the computed path of the bytes that this fetch returns
    (no write when the fetch throws). *)
Definition planned_effects (emojiId emojiName guildName : jsstring)
    (customDir : option jsstring) (size : option N) (st : State) : list Event :=
  let guildDir := guildDirOf customDir guildName in
  let url := buildEmojiUrl emojiId (default 128 size) in
  (if host_exists guildDir (world st) then [] else [EvMkdir guildDir])
  ++ EvFetch url
  :: match fst (host_fetch url (world_after_ensureDir guildDir (world st))) with
     | Ret buffer =>
         [EvWrite (filePathOf customDir guildName emojiName emojiId) buffer]
     | Throw _ => []
     end.

End TraceSpec.

(** ** More fixtures on the simulated host *)

Module Cases.
Import Scenario.
#[local] Existing Instance node.

(** The ID of the end-to-end example is tracked and nothing is on disk. *)
Definition tracked : State := state {[js "10"]} [(js "root", Sim.Dir)] [] [].

(** The three IDs of the batch are tracked. *)
Definition all_tracked : State :=
  state {[js "1"; js "2"; js "3"]} [(js "root", Sim.Dir)] [] [].

(** The states of the end-to-end example after [ensureDir], after the
    fetch and after the write. *)
Definition ensured : State := snd (ensureDir (js "root/My Server") (empty_root png)).
Definition fetched : State := snd (fetchBuffer (buildEmojiUrl (js "10") 128) ensured).
Definition written : State :=
  snd (writeFileSync (js "root/My Server/Pog-10.png") png fetched).

(** The states of the three-reference batch: during and after the
    download of the first reference, and during the download of the
    third. *)
Definition first_ensured : State :=
  snd (ensureDir (js "root/G") (second_tracked png png)).
Definition first_fetched : State :=
  snd (fetchBuffer (buildEmojiUrl (js "1") 128) first_ensured).
Definition first_written : State :=
  snd (writeFileSync (js "root/G/one-1.png") png first_fetched).
Definition after_first : State :=
  mkState ({[js "1"]} ∪ cachedEmojiIds (second_tracked png png))
    (world first_written) (trace first_written).
Definition third_ensured : State := snd (ensureDir (js "root/G") after_first).
Definition third_fetched : State :=
  snd (fetchBuffer (buildEmojiUrl (js "3") 128) third_ensured).
Definition third_written : State :=
  snd (writeFileSync (js "root/G/three-3.png") png third_fetched).

(** The state of the end-to-end example after the download, a later
    bootstrap, and the loss of everything on disk. *)
Definition file_gone : State :=
  mkState (cachedEmojiIds (snd (initCache root (snd (pog (empty_root png))))))
    (Sim.mkDisk [] [] [])
    (trace (snd (initCache root (snd (pog (empty_root png)))))).

(** A message with an animated and a static emoji. *)
Definition content : jsstring := js "gg <a:dance:42> and <:pog:10>".

End Cases.

(** * Properties *)

(** ** Stripping *)

Section Strip.
Variable p : N -> bool.

Lemma forallb_last (s : jsstring) c :
  last s = Some c -> p c = false -> forallb p s = false.
Proof.
  induction s as [|a t IH]; intros Hl Hc; [discriminate|].
  change (p a && forallb p t = false). destruct t as [|b t].
  - injection Hl as ->. by rewrite Hc.
  - rewrite last_cons_cons in Hl. rewrite (IH Hl Hc). apply andb_false_r.
Qed.

Lemma rstrip_nil_forallb (s : jsstring) : rstrip p s = [] -> forallb p s = true.
Proof.
  destruct s as [|a t]; [done|]. cbn [rstrip].
  by destruct (forallb p (a :: t)).
Qed.

Lemma rstrip_id (s : jsstring) :
  (forall c, last s = Some c -> p c = false) -> rstrip p s = s.
Proof.
  induction s as [|a t IH]; [done|]. intros Hl. cbn [rstrip].
  destruct (proj2 (last_is_Some (a :: t))) as [c E]; [done|].
  rewrite (forallb_last _ c E (Hl c E)). f_equal. apply IH.
  intros c' Hc'. apply Hl. destruct t; [done|]. by rewrite last_cons_cons.
Qed.

Lemma rstrip_last (s : jsstring) c :
  last (rstrip p s) = Some c -> p c = false.
Proof.
  induction s as [|a t IH]; [done|]. cbn [rstrip].
  destruct (forallb p (a :: t)) eqn:E; [done|].
  destruct (rstrip p t) as [|b r] eqn:R.
  - intros [= <-]. apply rstrip_nil_forallb in R. simpl in E.
    rewrite R, andb_true_r in E. done.
  - rewrite last_cons_cons. apply IH.
Qed.

Lemma rstrip_head (s : jsstring) : rstrip p s = [] \/ head (rstrip p s) = head s.
Proof.
  destruct s as [|a t]; [by left|]. cbn [rstrip].
  destruct (forallb p (a :: t)); [by left|by right].
Qed.

Lemma rstrip_length (s : jsstring) : (length (rstrip p s) <= length s)%nat.
Proof.
  induction s as [|a t IH]; [done|]. cbn [rstrip].
  destruct (forallb p (a :: t)); simpl; lia.
Qed.

Lemma rstrip_shorter (s : jsstring) c :
  last s = Some c -> p c = true -> (length (rstrip p s) < length s)%nat.
Proof.
  induction s as [|a t IH]; [done|]. cbn [rstrip]. intros Hl Hc.
  destruct (forallb p (a :: t)) eqn:E; simpl; [lia|].
  destruct t as [|b t].
  - injection Hl as ->. simpl in E. rewrite Hc in E. discriminate.
  - rewrite last_cons_cons in Hl. specialize (IH Hl Hc).
    change (length (a :: b :: t)) with (S (length (b :: t))). lia.
Qed.

Lemma rstrip_Forall (Q : N -> Prop) (s : jsstring) :
  Forall Q s -> Forall Q (rstrip p s).
Proof.
  induction 1 as [|a t Ha Ht IH]; [constructor|]. cbn [rstrip].
  destruct (forallb p (a :: t)); by constructor.
Qed.

Lemma lstrip_head (s : jsstring) c : head (lstrip p s) = Some c -> p c = false.
Proof.
  induction s as [|a t IH]; [done|]. simpl.
  destruct (p a) eqn:E; [done|]. by intros [= <-].
Qed.

Lemma lstrip_id (s : jsstring) :
  (forall c, head s = Some c -> p c = false) -> lstrip p s = s.
Proof.
  destruct s as [|a t]; [done|]. intros Hh. simpl. by rewrite (Hh a eq_refl).
Qed.

Lemma lstrip_length (s : jsstring) : (length (lstrip p s) <= length s)%nat.
Proof.
  induction s as [|a t IH]; [done|]. simpl. destruct (p a); simpl; lia.
Qed.

Lemma lstrip_Forall (Q : N -> Prop) (s : jsstring) :
  Forall Q s -> Forall Q (lstrip p s).
Proof.
  induction 1 as [|a t Ha Ht IH]; [constructor|]. simpl.
  destruct (p a); by try constructor.
Qed.

Lemma lstrip_app_length (r l : jsstring) :
  (length (lstrip p l) <= length (lstrip p (r ++ l)))%nat.
Proof.
  induction r as [|a r IH]; [done|]. simpl. destruct (p a); [done|].
  pose proof (lstrip_length l). simpl. rewrite length_app. lia.
Qed.

Lemma lspan_run (run rest : jsstring) c :
  Forall (fun d => p d = true) run -> p c = false ->
  lspan p (run ++ c :: rest) = run /\ lstrip p (run ++ c :: rest) = c :: rest.
Proof.
  intros Hrun Hc. induction Hrun as [|d run Hd _ [IH1 IH2]]; simpl.
  - by rewrite Hc.
  - rewrite Hd. by rewrite IH1, IH2.
Qed.

End Strip.

(** ** The sanitizer and the pattern on examples *)

Example sanitizeName_separators : sanitizeName (js "a/b\c") = js "a_b_c".
Proof. reflexivity. Qed.

Example sanitizeName_trailing_dots : sanitizeName (js "name...") = js "name".
Proof. reflexivity. Qed.

Example sanitizeName_empty : sanitizeName [] = js "unknown".
Proof. reflexivity. Qed.

Example sanitizeName_only_dots : sanitizeName (js " .. ") = js "..".
Proof. reflexivity. Qed.

Example match_id_plain : match_id (js "Foo-123.png") = Some (js "123").
Proof. reflexivity. Qed.

Example match_id_no_suffix : match_id (js "weird.png") = None.
Proof. reflexivity. Qed.

Example match_id_last_hyphen : match_id (js "a-1-22.png") = Some (js "22").
Proof. reflexivity. Qed.

Example buildEmojiUrl_default :
  buildEmojiUrl (js "10") 128
  = js "https://cdn.discordapp.com/emojis/10.png?size=128&quality=lossless".
Proof. reflexivity. Qed.

(** ** The name sanitizer *)

(** What every sanitized name satisfies: no unsafe character, not empty,
    no white space at either end. *)
Record clean (y : jsstring) : Prop := mkClean {
  clean_safe : Forall (fun c => is_unsafe c = false) y;
  clean_nonempty : y <> [];
  clean_head : forall c, head y = Some c -> is_space c = false;
  clean_last : forall c, last y = Some c -> is_space c = false;
}.

Lemma replace_unsafe_safe (s : jsstring) :
  Forall (fun c => is_unsafe c = false) (replace_unsafe s).
Proof.
  induction s as [|a t IH]; [constructor|]. cbn [replace_unsafe map].
  constructor; [|exact IH]. by destruct (is_unsafe a) eqn:E.
Qed.

Lemma replace_unsafe_id (s : jsstring) :
  Forall (fun c => is_unsafe c = false) s -> replace_unsafe s = s.
Proof.
  induction 1 as [|a t Ha _ IH]; [done|]. cbn [replace_unsafe map].
  rewrite Ha. f_equal. exact IH.
Qed.

Lemma unknown_clean : clean (js "unknown").
Proof.
  split.
  - by repeat constructor.
  - done.
  - by intros c [= <-].
  - by intros c [= <-].
Qed.

Lemma sanitizeName_clean (x : jsstring) : clean (sanitizeName x).
Proof.
  unfold sanitizeName.
  destruct (trim (strip_trailing_dots (replace_unsafe x))) as [|a t] eqn:T;
    [apply unknown_clean|].
  cbn [or_else]. rewrite <- T. unfold trim, strip_trailing_dots in *.
  set (z := rstrip is_dot (replace_unsafe x)) in *. split.
  - apply rstrip_Forall, lstrip_Forall, rstrip_Forall, replace_unsafe_safe.
  - by rewrite T.
  - intros c Hc. destruct (rstrip_head is_space (lstrip is_space z)) as [E|E].
    + by rewrite T in E.
    + rewrite E in Hc. by apply lstrip_head in Hc.
  - intros c. apply rstrip_last.
Qed.

Lemma sanitizeName_clean_id (y : jsstring) :
  clean y -> last y <> Some Chr.dot -> sanitizeName y = y.
Proof.
  intros [Hs Hn Hh Hl] Hd. unfold sanitizeName, trim, strip_trailing_dots.
  rewrite (replace_unsafe_id _ Hs).
  rewrite (rstrip_id is_dot y).
  - rewrite (lstrip_id is_space y Hh), (rstrip_id is_space y Hl).
    by destruct y.
  - intros c Hc. unfold is_dot. apply N.eqb_neq. intros ->. by apply Hd.
Qed.

(** A sanitized name that still ends with a period is not a fixed point:
    the next pass removes the period. *)
Lemma sanitizeName_trailing_dot (x : jsstring) :
  last (sanitizeName x) = Some Chr.dot ->
  sanitizeName (sanitizeName x) <> sanitizeName x.
Proof.
  intros Hd. pose proof (sanitizeName_clean x) as [Hs Hn Hh Hl].
  set (y := sanitizeName x) in *.
  unfold sanitizeName at 1. unfold trim, strip_trailing_dots.
  rewrite (replace_unsafe_id _ Hs).
  pose proof (rstrip_shorter is_dot y _ Hd eq_refl) as H1.
  pose proof (lstrip_length is_space (rstrip is_dot y)) as H2.
  pose proof (rstrip_length is_space (lstrip is_space (rstrip is_dot y))) as H3.
  destruct (rstrip is_space (lstrip is_space (rstrip is_dot y))) as [|a t] eqn:E;
    cbn [or_else]; intros Heq.
  - rewrite <- Heq in Hd. discriminate.
  - apply (f_equal length) in Heq. lia.
Qed.

(** C2: the sanitizer is meant to be idempotent and is not: it strips
    the trailing periods before it trims the white space, so sanitizing
    [a. ] gives [a.], with a trailing period left, and a second pass gives
    [a]. *)
Lemma sanitizeName_not_idempotent :
  sanitizeName (js "a. ") = js "a."
  /\ sanitizeName (sanitizeName (js "a. ")) = js "a"
  /\ sanitizeName (sanitizeName (js "a. ")) <> sanitizeName (js "a. ").
Proof. repeat split. discriminate. Qed.

(** Where the sanitized form does not end with a period, sanitizing
    twice gives the same string as sanitizing once. *)
Theorem sanitizeName_idempotent (x : jsstring) :
  last (sanitizeName x) <> Some Chr.dot ->
  sanitizeName (sanitizeName x) = sanitizeName x.
Proof.
  intros Hd. apply sanitizeName_clean_id; [apply sanitizeName_clean|exact Hd].
Qed.

Lemma sanitizeName_idempotent_witness :
  last (sanitizeName (js "a/b..")) <> Some Chr.dot
  /\ sanitizeName (sanitizeName (js "a/b..")) = sanitizeName (js "a/b..").
Proof.
  split; [discriminate|].
  apply (sanitizeName_idempotent (js "a/b..")). discriminate.
Defined.

(** ** File names and the bootstrap pattern *)

Lemma match_id_here_inner (c : N) (r tail : jsstring) :
  (4 < length (lstrip is_digit tail))%nat ->
  match_id_here (c :: r ++ tail) = None.
Proof.
  intros Hlen. cbn [match_id_here].
  pose proof (lstrip_app_length is_digit r tail) as Hle.
  rewrite (bool_decide_eq_false_2 (lstrip is_digit (r ++ tail) = js ".png")).
  - by rewrite andb_false_r.
  - intros Heq. rewrite Heq in Hle. simpl in Hle. lia.
Qed.

Lemma match_id_unfold (s : jsstring) :
  match_id s =
    match match_id_here s with
    | Some d => Some d
    | None => match s with [] => None | _ :: t => match_id t end
    end.
Proof. by destruct s. Qed.

Lemma match_id_here_suffix (emojiId : jsstring) :
  emojiId <> [] ->
  Forall (fun c => is_digit c = true) emojiId ->
  match_id_here (Chr.hyphen :: emojiId ++ Chr.dot :: js "png") = Some emojiId.
Proof.
  intros Hne Hdig.
  destruct (lspan_run is_digit emojiId (js "png") Chr.dot Hdig eq_refl)
    as [Hspan Hstrip].
  unfold match_id_here. rewrite Hspan, Hstrip.
  by rewrite (bool_decide_eq_false_2 _ Hne), bool_decide_eq_true_2.
Qed.

Lemma match_id_suffix (prefix emojiId : jsstring) :
  emojiId <> [] ->
  Forall (fun c => is_digit c = true) emojiId ->
  match_id (prefix ++ js "-" ++ emojiId ++ js ".png") = Some emojiId.
Proof.
  intros Hne Hdig.
  change (js "-" ++ emojiId ++ js ".png")
    with (Chr.hyphen :: emojiId ++ Chr.dot :: js "png").
  induction prefix as [|c r IH].
  - rewrite match_id_unfold. cbn [app].
    by rewrite (match_id_here_suffix _ Hne Hdig).
  - rewrite match_id_unfold. cbn [app].
    rewrite match_id_here_inner; [exact IH|].
    cbn [lstrip]. change (is_digit Chr.hyphen) with false. cbn iota.
    rewrite length_cons, length_app. simpl. lia.
Qed.

(** C3: for every display name and every non-empty string of ASCII
    digits [emojiId], the file name that [cacheEmoji] builds matches the
    bootstrap pattern and the captured group is [emojiId] itself. *)
Theorem filename_id_roundtrip (emojiName emojiId : jsstring) :
  emojiId <> [] ->
  Forall (fun c => is_digit c = true) emojiId ->
  match_id (emojiFileName emojiName emojiId) = Some emojiId.
Proof. apply match_id_suffix. Qed.

Lemma filename_id_roundtrip_witness :
  match_id (emojiFileName (js "a-1.png") (js "007")) = Some (js "007").
Proof.
  apply (filename_id_roundtrip (js "a-1.png") (js "007")).
  - discriminate.
  - repeat constructor.
Defined.

(** ** The single-asset operation *)

Section EngineFacts.
Context {node : Host}.

Ltac run :=
  unfold cacheEmoji, ensureDir, bind, try_catch, ret, has, add, existsSync,
    mkdirSync, writeFileSync, fetchBuffer, console_error, effect in *;
  cbn [fst snd] in *.

(** [cacheEmoji] has no path on which an exception escapes. *)
Lemma cacheEmoji_returns emojiId emojiName guildName customDir size st :
  exists result st',
    cacheEmoji emojiId emojiName guildName customDir size st = (Ret result, st').
Proof.
  run. repeat (case_match; cbn [fst snd] in * ); simplify_eq; eauto.
Qed.

Lemma cacheEmoji_grows emojiId emojiName guildName customDir size st :
  cachedEmojiIds st
    ⊆ cachedEmojiIds (snd (cacheEmoji emojiId emojiName guildName customDir size st)).
Proof.
  run. repeat (case_match; cbn [fst snd] in * ); simplify_eq;
    cbn [cachedEmojiIds snd]; set_solver.
Qed.

(** The host calls leave the set of tracked IDs alone. *)
Lemma ensureDir_ids dirPath st r st1 :
  ensureDir dirPath st = (r, st1) -> cachedEmojiIds st1 = cachedEmojiIds st.
Proof. run. case_match; intros; by simplify_eq. Qed.

Lemma fetchBuffer_ids url st r st1 :
  fetchBuffer url st = (r, st1) -> cachedEmojiIds st1 = cachedEmojiIds st.
Proof. run. intros; by simplify_eq. Qed.

Lemma writeFileSync_ids filePath data st r st1 :
  writeFileSync filePath data st = (r, st1) -> cachedEmojiIds st1 = cachedEmojiIds st.
Proof. run. intros; by simplify_eq. Qed.

(** C5: when the ID is not tracked and the computed path exists on
    disk, [cacheEmoji] returns [cached = false] with that path, which is
    not empty; the ID is tracked afterwards; nothing is fetched, written
    or created: the world and the trace of effects are unchanged. *)
Theorem cacheEmoji_heals emojiId emojiName guildName customDir size st :
  emojiId ∉ cachedEmojiIds st ->
  host_exists (filePathOf customDir guildName emojiName emojiId) (world st) = true ->
  exists st',
    cacheEmoji emojiId emojiName guildName customDir size st
      = (Ret (mkResult false (filePathOf customDir guildName emojiName emojiId)), st')
    /\ filePathOf customDir guildName emojiName emojiId <> []
    /\ cachedEmojiIds st' = {[emojiId]} ∪ cachedEmojiIds st
    /\ world st' = world st
    /\ trace st' = trace st.
Proof.
  intros Hnew Hfile. unfold filePathOf, guildDirOf in *. run.
  rewrite bool_decide_eq_false_2 by done. rewrite Hfile.
  eexists. split; [reflexivity|]. split; [apply join_nonempty|done].
Qed.

(** C4: when the ID is not tracked and the computed path does not
    exist, and directory creation, the fetch or the write throws,
    [cacheEmoji] returns [cached = false] with the empty path and the
    set of tracked IDs is unchanged. *)
Theorem cacheEmoji_failure_atomic emojiId emojiName guildName customDir size st :
  emojiId ∉ cachedEmojiIds st ->
  host_exists (filePathOf customDir guildName emojiName emojiId) (world st) = false ->
  download_fails (guildDirOf customDir guildName)
    (buildEmojiUrl emojiId (default 128 size))
    (filePathOf customDir guildName emojiName emojiId) st ->
  exists st',
    cacheEmoji emojiId emojiName guildName customDir size st
      = (Ret (mkResult false []), st')
    /\ cachedEmojiIds st' = cachedEmojiIds st.
Proof.
  intros Hnew Hfile Hfail. unfold filePathOf, guildDirOf in *.
  unfold cacheEmoji, bind, try_catch, has, existsSync, ret, console_error.
  cbn beta iota zeta. rewrite bool_decide_eq_false_2 by done. rewrite Hfile.
  destruct Hfail as [e st1 H1|e st1 st2 H1 H2|e st1 buffer st2 st3 H1 H2 H3].
  - rewrite H1. eexists. split; [reflexivity|]. cbn [cachedEmojiIds].
    apply (ensureDir_ids _ _ _ _ H1).
  - rewrite H1, H2. eexists. split; [reflexivity|]. cbn [cachedEmojiIds].
    rewrite (fetchBuffer_ids _ _ _ _ H2). apply (ensureDir_ids _ _ _ _ H1).
  - rewrite H1, H2, H3. eexists. split; [reflexivity|]. cbn [cachedEmojiIds].
    rewrite (writeFileSync_ids _ _ _ _ _ H3), (fetchBuffer_ids _ _ _ _ H2).
    apply (ensureDir_ids _ _ _ _ H1).
Qed.

(** C10: when the ID is not tracked, neither the file nor the guild
    directory exists, [mkdirSync] creates the directory and the fetch
    then throws (the network leaving the disk as it is), [cacheEmoji]
    returns [cached = false] with the empty path, and the directory that
    did not exist before the call exists after it. *)
Theorem cacheEmoji_failure_keeps_directory
    emojiId emojiName guildName customDir size st w1 e w2 :
  emojiId ∉ cachedEmojiIds st ->
  host_exists (filePathOf customDir guildName emojiName emojiId) (world st) = false ->
  host_exists (guildDirOf customDir guildName) (world st) = false ->
  host_mkdir (guildDirOf customDir guildName) (world st) = (Ret tt, w1) ->
  host_exists (guildDirOf customDir guildName) w1 = true ->
  host_fetch (buildEmojiUrl emojiId (default 128 size)) w1 = (Throw e, w2) ->
  host_exists (guildDirOf customDir guildName) w2 = host_exists (guildDirOf customDir guildName) w1 ->
  exists st',
    cacheEmoji emojiId emojiName guildName customDir size st
      = (Ret (mkResult false []), st')
    /\ host_exists (guildDirOf customDir guildName) (world st) = false
    /\ host_exists (guildDirOf customDir guildName) (world st') = true.
Proof.
  intros Hnew Hfile Hdir Hmk Hmade Hfetch Hkept. unfold filePathOf, guildDirOf in *.
  run. rewrite bool_decide_eq_false_2 by done. rewrite Hfile, Hdir.
  cbn [negb]. rewrite Hmk. cbn [fst snd world]. rewrite Hfetch. cbn [fst snd world].
  eexists. split; [reflexivity|]. split; [done|]. cbn [world]. congruence.
Qed.

(** ** The batch coordinator *)

Lemma cacheEmojis_loop_spec emojis customDir size n st :
  cacheEmojis_loop emojis customDir size n st
    = (Ret (n + length (filter (fun r => reported_cached r = true)
                          (fst (run_each emojis customDir size st))))%nat,
       snd (run_each emojis customDir size st)).
Proof.
  revert n st. induction emojis as [|emoji rest IH]; intros n st.
  - cbn. by rewrite Nat.add_0_r.
  - cbn [cacheEmojis_loop run_each]. unfold bind.
    destruct (cacheEmoji_returns (emoji_id emoji) (emoji_name emoji)
                (emoji_guildName emoji) customDir size st) as (result & st1 & E).
    rewrite E, IH.
    destruct (run_each rest customDir size st1) as [rs st2]. cbn [fst snd].
    rewrite filter_cons. cbn [reported_cached].
    destruct (cached result); case_decide; try done; f_equal; f_equal;
      cbn [length]; lia.
Qed.

Lemma run_each_shape emojis customDir size st :
  Forall2 (fun emoji r => exists result, r = Ret result)
    emojis (fst (run_each emojis customDir size st)).
Proof.
  revert st. induction emojis as [|emoji rest IH]; intros st; [constructor|].
  cbn [run_each].
  destruct (cacheEmoji_returns (emoji_id emoji) (emoji_name emoji)
              (emoji_guildName emoji) customDir size st) as (result & st1 & E).
  rewrite E. specialize (IH st1).
  destruct (run_each rest customDir size st1) as [rs st2]. cbn [fst] in *.
  constructor; eauto.
Qed.

Lemma run_each_grows emojis customDir size st :
  cachedEmojiIds st ⊆ cachedEmojiIds (snd (run_each emojis customDir size st)).
Proof.
  revert st. induction emojis as [|emoji rest IH]; intros st; [done|].
  cbn [run_each].
  pose proof (cacheEmoji_grows (emoji_id emoji) (emoji_name emoji)
                (emoji_guildName emoji) customDir size st) as Hg.
  destruct (cacheEmoji _ _ _ _ _ st) as [r st1]. specialize (IH st1).
  destruct (run_each rest customDir size st1) as [rs st2]. cbn [snd] in *.
  set_solver.
Qed.

End EngineFacts.

(** ** The bootstrap scan *)

Section BootstrapFacts.
Context {node : Host}.

Lemma scan_files_spec files count st :
  scan_files files count st
    = ((count + length (omap match_id files))%nat,
       mkState (list_to_set (omap match_id files) ∪ cachedEmojiIds st)
         (world st) (trace st)).
Proof.
  revert count st. induction files as [|file rest IH]; intros count st.
  - destruct st as [ids w tr]. cbn. f_equal; [lia|]. f_equal. set_solver.
  - cbn [scan_files].
    change (omap match_id (file :: rest))
      with (match match_id file with
            | Some emojiId => emojiId :: omap match_id rest
            | None => omap match_id rest
            end).
    destruct (match_id file) as [emojiId|].
    + rewrite IH. cbn. f_equal; [lia|]. f_equal. set_solver.
    + apply IH.
Qed.

Lemma readdirSync_run dirPath st :
  readdirSync dirPath st =
    match host_readdir dirPath (world st) with
    | Ret entries => (Ret (map name entries), st)
    | Throw e => (Throw e, st)
    end.
Proof.
  unfold readdirSync, readdirSync_withFileTypes, bind, ret.
  by destruct (host_readdir dirPath (world st)).
Qed.

Lemma scan_guilds_spec baseDir guildDirs count st :
  exists err,
    scan_guilds baseDir guildDirs count st
      = (err, (count + length (guild_ids baseDir guildDirs (world st)))%nat,
         mkState (list_to_set (guild_ids baseDir guildDirs (world st))
                    ∪ cachedEmojiIds st)
           (world st) (trace st)).
Proof.
  revert count st. induction guildDirs as [|guildDir rest IH]; intros count st.
  - exists None. destruct st as [ids w tr]. cbn. f_equal; [f_equal; lia|].
    f_equal. set_solver.
  - cbn [scan_guilds guild_ids]. rewrite readdirSync_run.
    destruct (host_readdir (join [baseDir; guildDir]) (world st)) as [entries|e].
    + rewrite scan_files_spec.
      destruct (IH (count + length (omap match_id (map name entries)))%nat
                  (mkState (list_to_set (omap match_id (map name entries))
                              ∪ cachedEmojiIds st) (world st) (trace st)))
        as [err ->].
      exists err. cbn [world trace cachedEmojiIds]. rewrite length_app.
      f_equal; [f_equal; lia|]. f_equal. set_solver.
    + exists (Some e). destruct st as [ids w tr]. cbn.
      f_equal; [f_equal; lia|]. f_equal. set_solver.
Qed.

Lemma scan_spec baseDir count st :
  exists err,
    scan baseDir count st
      = (err, (count + length (scanned_ids baseDir (world st)))%nat,
         mkState (list_to_set (scanned_ids baseDir (world st)) ∪ cachedEmojiIds st)
           (world st) (trace st)).
Proof.
  unfold scan, scanned_ids, readdirSync_withFileTypes.
  destruct (host_readdir baseDir (world st)) as [entries|e].
  - apply scan_guilds_spec.
  - exists (Some e). destruct st as [ids w tr]. cbn.
    f_equal; [f_equal; lia|]. f_equal. set_solver.
Qed.

(** [initCache] after a successful [ensureDir]: it returns, with the
    number of matching file names that the scan reached. *)
Lemma initCache_spec customDir st st1 :
  ensureDir (resolveBaseDir customDir) st = (Ret tt, st1) ->
  exists st',
    initCache customDir st
      = (Ret (length (scanned_ids (resolveBaseDir customDir) (world st1))), st')
    /\ cachedEmojiIds st'
         = list_to_set (scanned_ids (resolveBaseDir customDir) (world st1))
             ∪ cachedEmojiIds st
    /\ world st' = world st1.
Proof.
  intros E. unfold initCache. rewrite E.
  destruct (scan_spec (resolveBaseDir customDir) 0 st1) as [err ->].
  rewrite <- (ensureDir_ids _ _ _ _ E).
  destruct err; eexists; (split; [reflexivity|done]).
Qed.

Lemma initCache_throws customDir st e st1 :
  ensureDir (resolveBaseDir customDir) st = (Throw e, st1) ->
  initCache customDir st = (Throw e, st1).
Proof. intros E. unfold initCache. by rewrite E. Qed.

Lemma initCache_grows customDir st :
  cachedEmojiIds st ⊆ cachedEmojiIds (snd (initCache customDir st)).
Proof.
  destruct (ensureDir (resolveBaseDir customDir) st) as [[[]|e] st1] eqn:E.
  - destruct (initCache_spec _ _ _ E) as (st' & -> & Hids & _).
    cbn [snd]. rewrite Hids. set_solver.
  - rewrite (initCache_throws _ _ _ _ E). cbn [snd].
    by rewrite (ensureDir_ids _ _ _ _ E).
Qed.

Lemma size_list_to_set_le (ids : list jsstring) (X : gset jsstring) :
  X ⊆ list_to_set ids -> (size X <= length ids)%nat.
Proof.
  intros Hsub. unfold size, set_size. cbn.
  apply submseteq_length, NoDup_submseteq; [apply NoDup_elements|].
  intros x Hx. apply elem_of_elements in Hx.
  apply Hsub in Hx. by apply elem_of_list_to_set in Hx.
Qed.

(** C6 (amended): a failure of a directory listing never leaves
    [initCache]: whenever ensuring the root directory returned,
    [initCache] returns the count reached so far, the number of matching
    file names listed before the first listing that threw.  (A failure
    of [ensureDir] itself, before the [try] block, is not caught.) *)
Theorem initCache_catches_listing_failures customDir st st1 :
  ensureDir (resolveBaseDir customDir) st = (Ret tt, st1) ->
  exists st',
    initCache customDir st
      = (Ret (length (scanned_ids (resolveBaseDir customDir) (world st1))), st').
Proof.
  intros E. destruct (initCache_spec _ _ _ E) as (st' & Hrun & _). eauto.
Qed.

(** C7 (amended): the count that [initCache] returns is the number of
    scanned file names that match the pattern, each match counted; the
    IDs of these names are what the scan adds to the set, so the count
    is at least the number of IDs newly added. *)
Theorem initCache_count_matches customDir st n st' :
  initCache customDir st = (Ret n, st') ->
  n = length (scanned_ids (resolveBaseDir customDir) (world st'))
  /\ cachedEmojiIds st'
       = list_to_set (scanned_ids (resolveBaseDir customDir) (world st'))
           ∪ cachedEmojiIds st
  /\ (size (cachedEmojiIds st' ∖ cachedEmojiIds st) <= n)%nat.
Proof.
  intros Hrun.
  destruct (ensureDir (resolveBaseDir customDir) st) as [[[]|e] st1] eqn:E.
  - destruct (initCache_spec _ _ _ E) as (st2 & Hrun2 & Hids & Hw).
    rewrite Hrun in Hrun2. injection Hrun2 as -> <-.
    rewrite Hw. split; [done|]. split; [done|].
    apply size_list_to_set_le. rewrite Hids. set_solver.
  - rewrite (initCache_throws _ _ _ _ E) in Hrun. discriminate.
Qed.

(** C9: no operation removes an ID: every ID in the set before
    [cacheEmoji], [cacheEmojis] or [initCache] runs is in the set
    afterwards, whatever the outcome of the call. *)
Theorem tracker_monotone (st : State) :
  (forall emojiId emojiName guildName customDir size,
      cachedEmojiIds st
        ⊆ cachedEmojiIds (snd (cacheEmoji emojiId emojiName guildName customDir size st)))
  /\ (forall emojis customDir size,
      cachedEmojiIds st ⊆ cachedEmojiIds (snd (cacheEmojis emojis customDir size st)))
  /\ (forall customDir,
      cachedEmojiIds st ⊆ cachedEmojiIds (snd (initCache customDir st))).
Proof.
  split; [|split].
  - intros. apply cacheEmoji_grows.
  - intros. unfold cacheEmojis. rewrite cacheEmojis_loop_spec. cbn [snd].
    apply run_each_grows.
  - intros. apply initCache_grows.
Qed.

End BootstrapFacts.

(** ** Runs on the simulated host *)

#[local] Existing Instance Scenario.node.

Import Scenario.

(** C1 (as stated, refuted): on an empty tracker and an empty root the
    call for ID 10, name Pog, collection My Server does not return the
    path root/My_Server/Pog-10.png and stores nothing there: the space is
    not an unsafe character and stays in the directory name. *)
Lemma cacheEmoji_keeps_space :
  fst (pog (empty_root png))
    <> Ret (mkResult true (js "root/My_Server/Pog-10.png"))
  /\ Sim.assoc (js "root/My_Server/Pog-10.png")
       (Sim.nodes (world (snd (pog (empty_root png))))) = None
  /\ sanitizeName (js "My Server") = js "My Server".
Proof. vm_compute. repeat split. discriminate. Qed.

(** C1 (amended): starting from an empty tracker and an empty root,
    [cacheEmoji] with ID 10, name Pog, collection My Server and size
    128, and a fetch that returns [data], writes [data] to
    root/My Server/Pog-10.png and returns [cached = true] with that path;
    a second call with the same arguments returns [cached = false] with
    the empty path. *)
Theorem cacheEmoji_end_to_end (data : Buffer) :
  fst (pog (empty_root data))
    = Ret (mkResult true (js "root/My Server/Pog-10.png"))
  /\ Sim.assoc (js "root/My Server/Pog-10.png")
       (Sim.nodes (world (snd (pog (empty_root data))))) = Some (Sim.File data)
  /\ fst (pog (snd (pog (empty_root data)))) = Ret (mkResult false []).
Proof. vm_compute. repeat split. Qed.

Lemma cacheEmoji_failure_atomic_witness :
  exists st',
    pog no_network = (Ret (mkResult false []), st')
    /\ cachedEmojiIds st' = cachedEmojiIds no_network.
Proof.
  apply (cacheEmoji_failure_atomic (js "10") (js "Pog") (js "My Server")
           root (Some 128) no_network).
  - apply not_elem_of_empty.
  - reflexivity.
  - eapply fetch_throws; vm_compute; reflexivity.
Defined.

Lemma cacheEmoji_failure_keeps_directory_witness :
  exists st',
    pog no_network = (Ret (mkResult false []), st')
    /\ host_exists (js "root/My Server") (world no_network) = false
    /\ host_exists (js "root/My Server") (world st') = true.
Proof.
  eapply (cacheEmoji_failure_keeps_directory (js "10") (js "Pog")
            (js "My Server") root (Some 128) no_network).
  - apply not_elem_of_empty.
  - reflexivity.
  - reflexivity.
  - vm_compute. reflexivity.
  - reflexivity.
  - vm_compute. reflexivity.
  - reflexivity.
Defined.

Lemma cacheEmoji_heals_witness :
  exists st',
    pog on_disk = (Ret (mkResult false (js "root/My Server/Pog-10.png")), st')
    /\ js "root/My Server/Pog-10.png" <> []
    /\ cachedEmojiIds st' = {[js "10"]} ∪ cachedEmojiIds on_disk
    /\ world st' = world on_disk
    /\ trace st' = trace on_disk.
Proof.
  apply (cacheEmoji_heals (js "10") (js "Pog") (js "My Server")
           root (Some 128) on_disk).
  - apply not_elem_of_empty.
  - reflexivity.
Defined.

(** C6 (as stated, refuted): with the default directory under a data
    directory that refuses writes, [ensureDir] throws before the [try]
    block and [initCache] throws to its caller. *)
Lemma initCache_propagates_mkdir_failure :
  fst (initCache None read_only) = Throw Sim.EACCES.
Proof. vm_compute. reflexivity. Qed.

Lemma initCache_catches_listing_failures_witness :
  exists st', initCache root partial = (Ret 1%nat, st').
Proof.
  apply (initCache_catches_listing_failures root partial partial).
  vm_compute. reflexivity.
Defined.

(** C7 (as stated, refuted): with the same ID under two guild
    directories [initCache] returns 2, and the scan added one ID. *)
Lemma initCache_counts_files_not_ids :
  fst (initCache root twice) = Ret 2%nat
  /\ size (cachedEmojiIds (snd (initCache root twice)) ∖ cachedEmojiIds twice)
     = 1%nat.
Proof. vm_compute. split; reflexivity. Qed.

Lemma initCache_count_matches_witness :
  2%nat = length (scanned_ids (js "root") (world (snd (initCache root twice))))
  /\ cachedEmojiIds (snd (initCache root twice))
       = list_to_set (scanned_ids (js "root") (world (snd (initCache root twice))))
           ∪ cachedEmojiIds twice
  /\ (size (cachedEmojiIds (snd (initCache root twice)) ∖ cachedEmojiIds twice)
      <= 2)%nat.
Proof.
  apply (initCache_count_matches root twice 2%nat (snd (initCache root twice))).
  vm_compute. reflexivity.
Defined.


Section BatchServedFacts.
Context {node : Host}.

Lemma ensureDir_trace dirPath st r st1 :
  ensureDir dirPath st = (r, st1) ->
  exists pre, trace st1 = trace st ++ pre /\ fetch_write_events pre = [].
Proof.
  unfold ensureDir, bind, existsSync, ret, mkdirSync, effect.
  destruct (host_exists dirPath (world st)); cbn [negb]; intros [= <- <-].
  - exists []. by rewrite app_nil_r.
  - by exists [EvMkdir dirPath].
Qed.

Lemma served_run customDir size emoji st fate st' :
  served customDir size emoji st fate st' ->
  exists result evs,
    cacheEmoji (emoji_id emoji) (emoji_name emoji) (emoji_guildName emoji)
      customDir size st = (Ret result, st')
    /\ cached result = bool_decide (is_Some fate)
    /\ trace st' = trace st ++ evs
    /\ fetch_write_events evs = expected_fetch_write customDir size [emoji] [fate].
Proof.
  intros [Hin|buffer st1 st2 st3 Hnew Hfile H1 H2 H3];
    unfold filePathOf, guildDirOf in *;
    unfold cacheEmoji, bind, try_catch, has, existsSync, ret, add;
    cbn beta iota zeta.
  - rewrite bool_decide_eq_true_2 by done.
    exists (mkResult false []), []. by rewrite app_nil_r.
  - rewrite bool_decide_eq_false_2 by done. rewrite Hfile, H1, H2, H3.
    rewrite (writeFileSync_ids _ _ _ _ _ H3), (fetchBuffer_ids _ _ _ _ H2),
      (ensureDir_ids _ _ _ _ H1).
    destruct (ensureDir_trace _ _ _ _ H1) as (pre & Hpre & Hnone).
    unfold fetchBuffer, writeFileSync, effect in H2, H3.
    injection H2 as _ <-. injection H3 as _ <-. cbn [trace world] in *.
    eexists _, (pre ++ [_; _]). split; [reflexivity|].
    split; [done|]. split.
    + cbn [trace]. rewrite Hpre, <- !app_assoc. done.
    + unfold fetch_write_events in *. rewrite filter_app, Hnone. done.
Qed.

Lemma batch_served_run customDir size emojis st fates st' :
  batch_served customDir size emojis st fates st' ->
  run_each emojis customDir size st
    = (fst (run_each emojis customDir size st), st')
  /\ count_cached (fst (run_each emojis customDir size st))
     = length (downloaded fates)
  /\ length fates = length emojis
  /\ exists evs,
       trace st' = trace st ++ evs
       /\ fetch_write_events evs = expected_fetch_write customDir size emojis fates.
Proof.
  induction 1 as [st|emoji rest st fate st1 fates st2 Hs Hb IH].
  - cbn. repeat split. exists []. by rewrite app_nil_r.
  - destruct (served_run _ _ _ _ _ _ Hs) as (result & evs1 & Hrun & Hc & Ht1 & He1).
    destruct IH as (Hrest & Hcount & Hlen & evs2 & Ht2 & He2).
    cbn [run_each]. rewrite Hrun, Hrest. cbn [fst snd].
    split; [done|]. split; [|split].
    + unfold count_cached in *. rewrite filter_cons. cbn [reported_cached].
      unfold downloaded in *. rewrite Hc.
      destruct fate as [buffer|]; cbn [omap list_omap].
      * rewrite bool_decide_eq_true_2 by eauto.
        rewrite decide_True by done. cbn [length]. by rewrite Hcount.
      * rewrite bool_decide_eq_false_2 by (by intros [? ?]).
        rewrite decide_False by done. exact Hcount.
    + cbn [length]. by rewrite Hlen.
    + exists (evs1 ++ evs2). rewrite Ht2, Ht1, <- app_assoc. split; [done|].
      unfold fetch_write_events in *. rewrite filter_app, He1, He2.
      by destruct fate.
Qed.

Lemma expected_fetch_write_length customDir size emojis fates :
  length fates = length emojis ->
  length (expected_fetch_write customDir size emojis fates)
    = (2 * length (downloaded fates))%nat.
Proof.
  revert fates. induction emojis as [|e es IH]; intros [|[b|] fs] Hlen;
    try done; cbn in *; rewrite IH by lia; unfold downloaded; lia.
Qed.

Lemma fates_split (fates : list (option Buffer)) :
  (length (found_tracked fates) + length (downloaded fates))%nat = length fates.
Proof.
  unfold found_tracked, downloaded.
  induction fates as [|[b|] fs IH]; [done| |].
  - rewrite filter_cons, decide_False by done. cbn in *. lia.
  - rewrite filter_cons, decide_True by done. cbn in *. lia.
Qed.

End BatchServedFacts.

(** C8: [cacheEmojis] calls the single-asset operation once per
    reference, in the given order, each call on the state left by the
    previous one, no call throwing, and returns the number of calls that
    reported [cached = true].  For every batch whose references are each
    tracked or new with a successful download when their turn comes, it
    returns the number of new references, and the fetches and writes that
    occur are, for each new reference in the order of the batch, the fetch
    of its URL and the write of the fetched bytes to its path.  In
    particular, for every batch of three references of which one is
    tracked and two are new, it returns 2 and exactly two fetches and two
    writes occur, in the order of the batch. *)
Theorem cacheEmojis_sequential :
  (forall (h : Host) (emojis : list Emoji) customDir size (st : State),
      cacheEmojis (node := h) emojis customDir size st
        = (Ret (length (filter (fun r => reported_cached r = true)
                          (fst (run_each emojis customDir size st)))),
           snd (run_each emojis customDir size st))
      /\ Forall2 (fun emoji r => exists result, r = Ret result)
           emojis (fst (run_each emojis customDir size st)))
  /\ (forall (h : Host) (emojis : list Emoji) customDir size (st : State)
        fates st',
      batch_served (node := h) customDir size emojis st fates st' ->
      cacheEmojis emojis customDir size st = (Ret (length (downloaded fates)), st')
      /\ exists evs,
           trace st' = trace st ++ evs
           /\ fetch_write_events evs
              = expected_fetch_write customDir size emojis fates)
  /\ (forall (h : Host) (e1 e2 e3 : Emoji) customDir size (st : State)
        fates st',
      batch_served (node := h) customDir size [e1; e2; e3] st fates st' ->
      length (found_tracked fates) = 1%nat ->
      cacheEmojis [e1; e2; e3] customDir size st = (Ret 2%nat, st')
      /\ exists evs,
           trace st' = trace st ++ evs
           /\ fetch_write_events evs
              = expected_fetch_write customDir size [e1; e2; e3] fates
           /\ length (fetch_write_events evs) = 4%nat).
Proof.
  assert (forall (h : Host) (emojis : list Emoji) customDir size (st : State)
            fates st',
      batch_served (node := h) customDir size emojis st fates st' ->
      cacheEmojis emojis customDir size st = (Ret (length (downloaded fates)), st')
      /\ exists evs,
           trace st' = trace st ++ evs
           /\ fetch_write_events evs
              = expected_fetch_write customDir size emojis fates) as Hserved.
  { intros h emojis customDir size st fates st' Hb.
    destruct (batch_served_run _ _ _ _ _ _ Hb) as (Hrun & Hcount & _ & Hevs).
    split; [|exact Hevs].
    unfold cacheEmojis. rewrite cacheEmojis_loop_spec, Hrun. cbn [fst snd].
    by rewrite <- Hcount. }
  split; [|split].
  - intros h emojis customDir size st. split.
    + unfold cacheEmojis. by rewrite cacheEmojis_loop_spec.
    + apply run_each_shape.
  - exact Hserved.
  - intros h e1 e2 e3 customDir size st fates st' Hb Hone.
    destruct (Hserved _ _ _ _ _ _ _ Hb) as (Hrun & evs & Ht & He).
    destruct (batch_served_run _ _ _ _ _ _ Hb) as (_ & _ & Hlen & _).
    pose proof (fates_split fates) as Hsplit.
    pose proof (expected_fetch_write_length customDir size [e1; e2; e3] fates Hlen)
      as Hexp.
    cbn [length] in Hlen.
    assert (length (downloaded fates) = 2%nat) as Hd by lia.
    rewrite Hd in Hrun, Hexp. split; [exact Hrun|].
    exists evs. split; [done|]. split; [done|]. by rewrite He, Hexp.
Qed.

Lemma run_eq {A B} (p : A * B) (a : A) : fst p = a -> p = (a, snd p).
Proof. intros <-. by destruct p. Qed.

Lemma cacheEmojis_sequential_witness :
  exists st',
    cacheEmojis batch root (Some 128) (second_tracked png png) = (Ret 2%nat, st')
    /\ exists evs,
         trace st' = trace (second_tracked png png) ++ evs
         /\ fetch_write_events evs
            = expected_fetch_write root (Some 128) batch [Some png; None; Some png]
         /\ length (fetch_write_events evs) = 4%nat.
Proof.
  eexists.
  apply (proj2 (proj2 cacheEmojis_sequential) Scenario.node
           (mkEmoji (js "1") (js "one") (js "G"))
           (mkEmoji (js "2") (js "two") (js "G"))
           (mkEmoji (js "3") (js "three") (js "G"))
           root (Some 128) (second_tracked png png)
           [Some png; None; Some png]).
  - apply (batch_served_cons _ _ _ _ _ _ Cases.after_first).
    + apply (served_new root (Some 128) (mkEmoji (js "1") (js "one") (js "G"))
               (second_tracked png png) png Cases.first_ensured
               Cases.first_fetched Cases.first_written).
      * cbn. intros Hin%elem_of_singleton. discriminate.
      * vm_compute. reflexivity.
      * apply run_eq. vm_compute. reflexivity.
      * apply run_eq. vm_compute. reflexivity.
      * apply run_eq. vm_compute. reflexivity.
    + apply (batch_served_cons _ _ _ _ _ _ Cases.after_first).
      * apply served_tracked. cbn. set_solver.
      * eapply batch_served_cons; [|apply batch_served_nil].
        apply (served_new root (Some 128)
                 (mkEmoji (js "3") (js "three") (js "G")) Cases.after_first png
                 Cases.third_ensured Cases.third_fetched Cases.third_written).
        -- cbn. intros [Hin|Hin]%elem_of_union;
             apply elem_of_singleton in Hin; discriminate.
        -- vm_compute. reflexivity.
        -- apply run_eq. vm_compute. reflexivity.
        -- apply run_eq. vm_compute. reflexivity.
        -- apply run_eq. vm_compute. reflexivity.
  - reflexivity.
Defined.

(** * Further properties *)

(** ** What the sanitizer returns *)

Lemma rstrip_snoc (p : N -> bool) (s : jsstring) (c : N) :
  p c = true ->
  (forall d, last s = Some d -> p d = false) ->
  rstrip p (s ++ [c]) = s.
Proof.
  intros Hc. induction s as [|a t IH]; intros Hl.
  - cbn. by rewrite Hc.
  - change ((a :: t) ++ [c]) with (a :: (t ++ [c])). cbn [rstrip].
    destruct (proj2 (last_is_Some (a :: t))) as [d Hd]; [done|].
    replace (forallb p (a :: t ++ [c])) with false.
    + f_equal. apply IH. intros d' Hd'. apply Hl.
      destruct t; [done|]. by rewrite last_cons_cons.
    + symmetry. change (a :: t ++ [c]) with ((a :: t) ++ [c]).
      rewrite forallb_app, (forallb_last p _ d Hd (Hl d Hd)). done.
Qed.

Lemma sanitizeName_space_after (y : jsstring) :
  clean y -> sanitizeName (y ++ [32]) = y.
Proof.
  intros [Hs Hn Hh Hl]. unfold sanitizeName, trim, strip_trailing_dots.
  rewrite replace_unsafe_id
    by (apply Forall_app; split; [exact Hs|by repeat constructor]).
  rewrite (rstrip_id is_dot (y ++ [32]))
    by (intros c; rewrite last_snoc; by intros [= <-]).
  rewrite (lstrip_id is_space (y ++ [32]))
    by (destruct y; [done|exact Hh]).
  rewrite (rstrip_snoc is_space y 32 eq_refl Hl).
  by destruct y.
Qed.

(** X1: a sanitized name is never empty, contains no character of the
    unsafe class (so no slash and no backslash), and neither starts nor
    ends with white space. *)
Theorem sanitizeName_segment (x : jsstring) :
  sanitizeName x <> []
  /\ (forall c, c ∈ sanitizeName x -> is_unsafe c = false)
  /\ (Chr.slash ∉ sanitizeName x)
  /\ (Chr.backslash ∉ sanitizeName x)
  /\ (forall c, head (sanitizeName x) = Some c -> is_space c = false)
  /\ (forall c, last (sanitizeName x) = Some c -> is_space c = false).
Proof.
  destruct (sanitizeName_clean x) as [Hs Hn Hh Hl].
  rewrite Forall_forall in Hs.
  repeat split; try done.
  - intros Hin. by apply Hs in Hin.
  - intros Hin. by apply Hs in Hin.
Qed.

(** X2: the strings that [sanitizeName] can return are exactly the clean
    ones: not empty, without unsafe characters, without white space at
    either end.  Names that end with periods, and the names of one and of
    two periods, are among them. *)
Theorem sanitizeName_image (y : jsstring) :
  (exists x, sanitizeName x = y) <-> clean y.
Proof.
  split.
  - intros [x <-]. apply sanitizeName_clean.
  - intros Hy. exists (y ++ [32]). by apply sanitizeName_space_after.
Qed.

(** X3: the names that [sanitizeName] leaves unchanged are exactly the
    clean ones that do not end with a period. *)
Theorem sanitizeName_fixed_points (y : jsstring) :
  sanitizeName y = y <-> clean y /\ last y <> Some Chr.dot.
Proof.
  split.
  - intros Hfix. split.
    + rewrite <- Hfix. apply sanitizeName_clean.
    + intros Hd. apply (sanitizeName_trailing_dot y); rewrite !Hfix; done.
  - intros [Hc Hd]. by apply sanitizeName_clean_id.
Qed.

Example sanitizeName_dot_dot : sanitizeName (js ".. ") = js "..".
Proof. reflexivity. Qed.

(** ** URLs and the base directory *)

Lemma uint_digits_inj (d d' : Decimal.uint) :
  uint_digits d = uint_digits d' -> d = d'.
Proof.
  revert d'. induction d; intros d' Heq; destruct d'; try discriminate;
    try reflexivity; injection Heq as Heq; f_equal; by apply IHd.
Qed.

Lemma number_to_string_inj (m n : N) :
  number_to_string m = number_to_string n -> m = n.
Proof.
  unfold number_to_string. intros Heq%uint_digits_inj.
  rewrite <- (DecimalN.Unsigned.of_to m), <- (DecimalN.Unsigned.of_to n).
  by rewrite Heq.
Qed.

(** X4: for IDs made of ASCII digits and sizes that are integers from 0
    to 2^53 - 1 (the integers that a JavaScript number holds exactly and
    that a template literal prints in plain decimal), distinct IDs or
    distinct sizes give distinct URLs: the URL determines both the ID and
    the size. *)
Theorem buildEmojiUrl_injective (id1 id2 : jsstring) (size1 size2 : N) :
  Forall (fun c => is_digit c = true) id1 ->
  Forall (fun c => is_digit c = true) id2 ->
  size1 <= 9007199254740991 ->
  size2 <= 9007199254740991 ->
  buildEmojiUrl id1 size1 = buildEmojiUrl id2 size2 ->
  id1 = id2 /\ size1 = size2.
Proof.
  intros H1 H2 _ _ Heq. unfold buildEmojiUrl in Heq.
  apply app_inv_head in Heq. cbn [js app] in Heq. injection Heq as Heq.
  assert (id1 = id2) as <-.
  { destruct (lspan_run is_digit id1
                (js "png?size=" ++ number_to_string size1 ++ js "&quality=lossless")
                Chr.dot H1 eq_refl) as [E1 _].
    destruct (lspan_run is_digit id2
                (js "png?size=" ++ number_to_string size2 ++ js "&quality=lossless")
                Chr.dot H2 eq_refl) as [E2 _].
    rewrite <- E1, <- E2. f_equal. exact Heq. }
  split; [done|]. apply app_inv_head in Heq.
  change (?a :: ?b) with ([a] ++ b) in Heq.
  apply (app_inv_head (js ".png?size=")) in Heq.
  apply app_inv_tail in Heq. by apply number_to_string_inj.
Qed.

Lemma buildEmojiUrl_injective_witness :
  buildEmojiUrl (js "10") 128 = buildEmojiUrl (js "10") 128
  /\ js "10" = js "10" /\ 128 = 128.
Proof.
  split; [reflexivity|].
  apply (buildEmojiUrl_injective (js "10") (js "10") 128 128);
    [repeat constructor|repeat constructor|discriminate|discriminate|reflexivity].
Defined.

Lemma substitution_plain (matched before after repl : jsstring) :
  (Chr.dollar ∉ repl) -> substitution matched before after repl = repl.
Proof.
  induction repl as [|c r IH]; [done|]. intros Hno.
  assert ((c =? Chr.dollar) = false) as Hc.
  { apply N.eqb_neq. intros ->. apply Hno. by left. }
  assert (Chr.dollar ∉ r) as Hr by (intros Hin; apply Hno; by right).
  cbn [substitution]. destruct r as [|d r']; [done|].
  rewrite Hc. cbn [andb]. f_equal. by apply IH.
Qed.

Lemma trim_nil : trim [] = [].
Proof. reflexivity. Qed.

Section BaseDirFacts.
Context {node : Host}.

(** X5: a custom directory that is empty or consists of white space is
    ignored: the base directory is the default one, as when the argument
    is omitted. *)
Theorem resolveBaseDir_blank (dir : jsstring) :
  trim dir = [] ->
  resolveBaseDir (Some dir) = join [DATA_DIR; js "emotes"]
  /\ resolveBaseDir (Some dir) = resolveBaseDir None.
Proof.
  intros Hblank. unfold resolveBaseDir. rewrite Hblank.
  by rewrite andb_false_r.
Qed.

Lemma not_blank_cond (dir : jsstring) :
  trim dir <> [] ->
  negb (bool_decide (dir = [])) && (0 <? length (trim dir))%nat = true.
Proof.
  intros Hdir. apply andb_true_iff. split.
  - apply negb_true_iff, bool_decide_eq_false_2. by intros ->.
  - apply Nat.ltb_lt. destruct (trim dir); [done|cbn; lia].
Qed.

(** X6: a custom directory that is not blank and does not start with a
    tilde is used as it is written: it is neither trimmed nor
    normalized. *)
Theorem resolveBaseDir_custom (dir : jsstring) :
  trim dir <> [] ->
  head dir <> Some Chr.tilde ->
  resolveBaseDir (Some dir) = dir.
Proof.
  intros Hdir Hhead. unfold resolveBaseDir. rewrite (not_blank_cond _ Hdir).
  destruct dir as [|c t]; [done|]. cbn [replace_leading_tilde].
  destruct (N.eqb_spec c Chr.tilde) as [->|]; [by destruct Hhead|done].
Qed.

(** X7: in a custom directory that starts with a tilde, this one
    character is replaced by the value of HOME, for a HOME without dollar
    signs, and by nothing when HOME is not set; the rest is kept as it is
    (also when the tilde is followed by a user name). *)
Theorem resolveBaseDir_home (rest : jsstring) :
  (Chr.dollar ∉ default [] HOME) ->
  resolveBaseDir (Some (Chr.tilde :: rest)) = default [] HOME ++ rest.
Proof.
  intros Hno. unfold resolveBaseDir. rewrite not_blank_cond.
  - cbn [replace_leading_tilde]. change (Chr.tilde =? Chr.tilde) with true.
    cbn iota. by rewrite substitution_plain.
  - unfold trim. change (lstrip is_space (Chr.tilde :: rest)) with (Chr.tilde :: rest).
    cbn [rstrip forallb]. change (is_space Chr.tilde) with false. done.
Qed.

End BaseDirFacts.

(** ** More on the single-asset operation *)

Section SingleFacts.
Context {node : Host}.

Ltac run :=
  unfold cacheEmoji, ensureDir, bind, try_catch, ret, has, add, existsSync,
    mkdirSync, writeFileSync, fetchBuffer, console_error, effect in *;
  cbn [fst snd] in *.

Lemma cacheEmoji_tracked emojiId emojiName guildName customDir size st :
  emojiId ∈ cachedEmojiIds st ->
  cacheEmoji emojiId emojiName guildName customDir size st
    = (Ret (mkResult false []), st).
Proof. intros Hin. run. by rewrite bool_decide_eq_true_2. Qed.

Lemma cacheEmoji_outcome emojiId emojiName guildName customDir size st :
  exists result st',
    cacheEmoji emojiId emojiName guildName customDir size st = (Ret result, st')
    /\ ((path result = [] /\ cached result = false
         /\ cachedEmojiIds st' = cachedEmojiIds st)
        \/ (path result <> []
            /\ (emojiId ∉ cachedEmojiIds st)
            /\ cachedEmojiIds st' = {[emojiId]} ∪ cachedEmojiIds st)).
Proof.
  pose proof (join_nonempty
                [join [resolveBaseDir customDir; sanitizeName guildName];
                 emojiFileName emojiName emojiId]) as Hne.
  destruct (decide (emojiId ∈ cachedEmojiIds st)) as [Hin|Hnew].
  - rewrite (cacheEmoji_tracked _ _ _ _ _ _ Hin). eauto 10.
  - run. rewrite bool_decide_eq_false_2 by done.
    repeat (case_match; cbn [fst snd] in * ); simplify_eq;
      eexists _, _; (split; [reflexivity|]); cbn [path cached cachedEmojiIds];
      eauto 10.
Qed.

(** X8: for an ID that is tracked, [cacheEmoji] returns [cached = false]
    with the empty path and does nothing else: no existence check result
    is used, nothing is created, fetched, written or logged, and the state
    is the one before the call, whatever the names, the directory and the
    size. *)
Theorem cacheEmoji_tracked_noop emojiId emojiName guildName customDir size st :
  emojiId ∈ cachedEmojiIds st ->
  cacheEmoji emojiId emojiName guildName customDir size st
    = (Ret (mkResult false []), st).
Proof. intros Hin. run. by rewrite bool_decide_eq_true_2. Qed.

(** X9: when the ID is not tracked, the file does not exist and
    [ensureDir], the fetch and the write all return, [cacheEmoji] returns
    [cached = true] with the computed path, the ID is tracked, and the
    world and the effects are those left by the write: the bytes written
    are the bytes fetched from the URL of this ID and size. *)
Theorem cacheEmoji_success emojiId emojiName guildName customDir size
    st st1 buffer st2 st3 :
  emojiId ∉ cachedEmojiIds st ->
  host_exists (filePathOf customDir guildName emojiName emojiId) (world st) = false ->
  ensureDir (guildDirOf customDir guildName) st = (Ret tt, st1) ->
  fetchBuffer (buildEmojiUrl emojiId (default 128 size)) st1 = (Ret buffer, st2) ->
  writeFileSync (filePathOf customDir guildName emojiName emojiId) buffer st2
    = (Ret tt, st3) ->
  cacheEmoji emojiId emojiName guildName customDir size st
    = (Ret (mkResult true (filePathOf customDir guildName emojiName emojiId)),
       mkState ({[emojiId]} ∪ cachedEmojiIds st) (world st3) (trace st3))
  /\ trace st3
     = trace st1
         ++ [EvFetch (buildEmojiUrl emojiId (default 128 size));
             EvWrite (filePathOf customDir guildName emojiName emojiId) buffer].
Proof.
  intros Hnew Hfile H1 H2 H3. unfold filePathOf, guildDirOf in *. split.
  - unfold cacheEmoji, bind, try_catch, has, existsSync, ret, add.
    cbn beta iota zeta. rewrite bool_decide_eq_false_2 by done.
    rewrite Hfile, H1, H2, H3.
    rewrite (writeFileSync_ids _ _ _ _ _ H3), (fetchBuffer_ids _ _ _ _ H2),
      (ensureDir_ids _ _ _ _ H1). done.
  - unfold fetchBuffer, writeFileSync, effect in H2, H3.
    injection H2 as _ <-. injection H3 as _ <-. cbn [trace].
    by rewrite <- app_assoc.
Qed.

(** X10: whatever happens, the result and the set of tracked IDs are tied
    together: either the path is empty, [cached] is false and the set is
    unchanged (the ID was tracked, or the download failed), or the path is
    the computed file path, the ID was not tracked and it is the one and
    only ID added (the file was there, or it was downloaded). *)
Theorem cacheEmoji_result_tracker emojiId emojiName guildName customDir size st :
  exists result st',
    cacheEmoji emojiId emojiName guildName customDir size st = (Ret result, st')
    /\ ((path result = [] /\ cached result = false
         /\ cachedEmojiIds st' = cachedEmojiIds st)
        \/ (path result = filePathOf customDir guildName emojiName emojiId
            /\ path result <> []
            /\ (emojiId ∉ cachedEmojiIds st)
            /\ cachedEmojiIds st' = {[emojiId]} ∪ cachedEmojiIds st)).
Proof.
  unfold filePathOf, guildDirOf.
  pose proof (join_nonempty
                [join [resolveBaseDir customDir; sanitizeName guildName];
                 emojiFileName emojiName emojiId]) as Hne.
  destruct (decide (emojiId ∈ cachedEmojiIds st)) as [Hin|Hnew].
  - rewrite (cacheEmoji_tracked _ _ _ _ _ _ Hin). eauto 10.
  - run. rewrite bool_decide_eq_false_2 by done.
    repeat (case_match; cbn [fst snd] in * ); simplify_eq;
      eexists _, _; (split; [reflexivity|]); cbn [path cached cachedEmojiIds];
      eauto 10.
Qed.

Lemma later_grows (st1 st2 : State) :
  later st1 st2 -> cachedEmojiIds st1 ⊆ cachedEmojiIds st2.
Proof.
  induction 1 as [st|st st' st'' Hstep _ IH]; [done|].
  etrans; [|exact IH]. destruct Hstep.
  - apply cacheEmoji_grows.
  - unfold cacheEmojis. rewrite cacheEmojis_loop_spec. apply run_each_grows.
  - apply initCache_grows.
  - done.
Qed.

(** X11: at most once.  After a call that returned a path (the file was
    found or was downloaded), every later call for the same ID returns
    [cached = false] with the empty path and changes nothing: in every
    state reached from there by any number of calls of [cacheEmoji],
    [cacheEmojis] and [initCache] with any arguments and by any changes of
    the disk and the network (the file may be gone), under any name,
    guild, directory or size. *)
Theorem cacheEmoji_at_most_once emojiId emojiName guildName customDir size
    st result st1 st2 :
  cacheEmoji emojiId emojiName guildName customDir size st = (Ret result, st1) ->
  path result <> [] ->
  later st1 st2 ->
  forall emojiName' guildName' customDir' size',
    cacheEmoji emojiId emojiName' guildName' customDir' size' st2
      = (Ret (mkResult false []), st2).
Proof.
  intros Hrun Hpath Hlater emojiName' guildName' customDir' size'.
  apply cacheEmoji_tracked. apply (later_grows _ _ Hlater).
  destruct (cacheEmoji_outcome emojiId emojiName guildName customDir size st)
    as (r & st' & Hrun' & [(Hp & _)|(_ & _ & Hids)]);
    rewrite Hrun in Hrun'; simplify_eq; try done.
  rewrite Hids. set_solver.
Qed.

End SingleFacts.

Section TraceFacts.
Context {node : Host}.

Ltac run :=
  unfold cacheEmoji, ensureDir, bind, try_catch, ret, has, add, existsSync,
    mkdirSync, writeFileSync, fetchBuffer, console_error, effect in *;
  cbn [fst snd] in *.

(** X12: the effects of one call on the host are a prefix of the plan
    of a download: the creation of the guild directory exactly when it
    does not exist, then the fetch of the URL of this ID and size, then
    the write to the computed path of the bytes that this fetch returned;
    and they are the whole plan when the call reports [cached = true].  So
    one call fetches at most once and only that URL, writes at most once,
    only to that path and only the fetched bytes, and never writes without
    having fetched. *)
Theorem cacheEmoji_effects emojiId emojiName guildName customDir size st :
  exists evs,
    trace (snd (cacheEmoji emojiId emojiName guildName customDir size st))
      = trace st ++ evs
    /\ io_events evs
         `prefix_of` planned_effects emojiId emojiName guildName customDir size st
    /\ (reported_cached
          (fst (cacheEmoji emojiId emojiName guildName customDir size st)) = true ->
        io_events evs
          = planned_effects emojiId emojiName guildName customDir size st).
Proof.
  unfold planned_effects, world_after_ensureDir, filePathOf, guildDirOf. run.
  case_bool_decide; cbn [fst snd trace reported_cached cached].
  { exists []. split; [by rewrite app_nil_r|]. split; [by eexists|done]. }
  destruct (host_exists (join [join [resolveBaseDir customDir; sanitizeName guildName];
                               emojiFileName emojiName emojiId]) (world st));
    cbn [fst snd trace reported_cached cached].
  { exists []. split; [by rewrite app_nil_r|]. split; [by eexists|done]. }
  destruct (host_exists (join [resolveBaseDir customDir; sanitizeName guildName])
              (world st)); cbn [negb fst snd world trace].
  - destruct (host_fetch _ (world st)) as [[buffer|e] w2];
      cbn [fst snd world trace reported_cached cached].
    + destruct (host_write _ buffer w2) as [[[]|e] w3];
        cbn [fst snd world trace reported_cached cached];
        rewrite <- ?app_assoc; cbn [app];
        (eexists; split; [reflexivity|]; split; [by eexists|done]).
    + rewrite <- ?app_assoc; cbn [app].
      eexists; split; [reflexivity|]; split; [by eexists|done].
  - destruct (host_mkdir _ (world st)) as [[[]|e] w1];
      cbn [fst snd world trace reported_cached cached].
    + destruct (host_fetch _ w1) as [[buffer|e] w2];
        cbn [fst snd world trace reported_cached cached].
      * destruct (host_write _ buffer w2) as [[[]|e] w3];
          cbn [fst snd world trace reported_cached cached];
          rewrite <- ?app_assoc; cbn [app];
          (eexists; split; [reflexivity|]; split; [by eexists|done]).
      * rewrite <- ?app_assoc; cbn [app].
        eexists; split; [reflexivity|]; split; [by eexists|done].
    + rewrite <- ?app_assoc; cbn [app].
      eexists; split; [reflexivity|]; split; [by eexists|done].
Qed.

End TraceFacts.

(** ** More on the batch coordinator *)

Section BatchFacts.
Context {node : Host}.

Lemma cacheEmojis_run emojis customDir size st :
  cacheEmojis emojis customDir size st
    = (Ret (count_cached (fst (run_each emojis customDir size st))),
       snd (run_each emojis customDir size st)).
Proof. unfold cacheEmojis. by rewrite cacheEmojis_loop_spec. Qed.

Lemma run_each_app xs ys customDir size st :
  run_each (xs ++ ys) customDir size st
    = (fst (run_each xs customDir size st)
         ++ fst (run_each ys customDir size (snd (run_each xs customDir size st))),
       snd (run_each ys customDir size (snd (run_each xs customDir size st)))).
Proof.
  revert st. induction xs as [|x xs IH]; intros st.
  - cbn. by destruct (run_each ys customDir size st).
  - cbn [app run_each].
    destruct (cacheEmoji _ _ _ _ _ st) as [r st1]. rewrite IH.
    destruct (run_each xs customDir size st1) as [rs st2]. done.
Qed.

(** X13: a batch can be split anywhere: running the two parts one after
    the other, the second on the state left by the first, gives the state
    of the whole batch and counts that add up to its count. *)
Theorem cacheEmojis_app xs ys customDir size st :
  exists n1 st1 n2 st2,
    cacheEmojis xs customDir size st = (Ret n1, st1)
    /\ cacheEmojis ys customDir size st1 = (Ret n2, st2)
    /\ cacheEmojis (xs ++ ys) customDir size st = (Ret (n1 + n2)%nat, st2).
Proof.
  rewrite !cacheEmojis_run, run_each_app. cbn [fst snd].
  eexists _, _, _, _. split; [reflexivity|].
  rewrite cacheEmojis_run. split; [reflexivity|].
  unfold count_cached. by rewrite filter_app, length_app.
Qed.

Lemma size_difference_step (X Y : gset jsstring) (x : jsstring) :
  x ∉ X -> {[x]} ∪ X ⊆ Y -> size (Y ∖ X) = S (size (Y ∖ ({[x]} ∪ X))).
Proof.
  intros Hx Hsub.
  replace (Y ∖ X) with ({[x]} ∪ Y ∖ ({[x]} ∪ X)).
  - rewrite size_union by set_solver. by rewrite size_singleton.
  - apply set_eq. intros y. destruct (decide (y = x)) as [->|]; set_solver.
Qed.

Lemma run_each_bounds emojis customDir sz st :
  (count_cached (fst (run_each emojis customDir sz st))
     <= size (cachedEmojiIds (snd (run_each emojis customDir sz st))
                ∖ cachedEmojiIds st))%nat
  /\ cachedEmojiIds (snd (run_each emojis customDir sz st))
       ⊆ cachedEmojiIds st ∪ list_to_set (emoji_id <$> emojis).
Proof.
  revert st. induction emojis as [|emoji rest IH]; intros st.
  - cbn. split; [lia|set_solver].
  - pose proof (run_each_grows rest customDir sz) as Hgrow.
    cbn [run_each].
    destruct (cacheEmoji_outcome (emoji_id emoji) (emoji_name emoji)
                (emoji_guildName emoji) customDir sz st)
      as (result & st1 & -> & Hcase).
    specialize (IH st1). specialize (Hgrow st1).
    destruct (run_each rest customDir sz st1) as [rs st2]. cbn [fst snd] in *.
    destruct IH as [IHn IHs]. unfold count_cached in *. rewrite filter_cons.
    cbn [reported_cached fmap list_fmap list_to_set].
    destruct Hcase as [(_ & -> & Hids)|(_ & Hnew & Hids)].
    + rewrite decide_False by done. rewrite Hids in *. split; [done|set_solver].
    + rewrite Hids in *. split; [|set_solver].
      rewrite (size_difference_step _ _ (emoji_id emoji) Hnew Hgrow).
      case_decide; cbn [length]; lia.
Qed.

(** X14: the count of a batch is at most the number of its references
    and at most the number of IDs that the batch added to the set (an ID
    that occurs twice in a batch is counted once, a file found on disk
    adds its ID without being counted), and every ID added is the ID of
    one of the references. *)
Theorem cacheEmojis_bounds emojis customDir sz st :
  exists n st',
    cacheEmojis emojis customDir sz st = (Ret n, st')
    /\ (n <= length emojis)%nat
    /\ (n <= size (cachedEmojiIds st' ∖ cachedEmojiIds st))%nat
    /\ cachedEmojiIds st' ⊆ cachedEmojiIds st ∪ list_to_set (emoji_id <$> emojis).
Proof.
  rewrite cacheEmojis_run. eexists _, _. split; [reflexivity|].
  destruct (run_each_bounds emojis customDir sz st) as [Hn Hs].
  split; [|done].
  rewrite (Forall2_length _ _ _ (run_each_shape emojis customDir sz st)).
  unfold count_cached. apply length_filter.
Qed.

(** X15: a batch whose IDs are all tracked returns 0 and changes
    nothing. *)
Theorem cacheEmojis_all_tracked emojis customDir size st :
  (forall emoji, emoji ∈ emojis -> emoji_id emoji ∈ cachedEmojiIds st) ->
  cacheEmojis emojis customDir size st = (Ret 0%nat, st).
Proof.
  intros Hall. rewrite cacheEmojis_run.
  enough (run_each emojis customDir size st
          = (map (fun _ => Ret (mkResult false [])) emojis, st)) as ->.
  { cbn [fst snd]. f_equal. f_equal. unfold count_cached.
    induction emojis as [|e es IH]; [done|]. cbn [map]. rewrite filter_cons.
    cbn [reported_cached cached]. rewrite decide_False by done.
    apply IH. intros e' He'. apply Hall. by right. }
  induction emojis as [|e es IH]; [done|]. cbn [run_each map].
  rewrite cacheEmoji_tracked by (apply Hall; by left).
  rewrite IH by (intros e' He'; apply Hall; by right). done.
Qed.

End BatchFacts.

(** ** More on the bootstrap *)

Lemma lspan_lstrip (p : N -> bool) (s : jsstring) : lspan p s ++ lstrip p s = s.
Proof.
  induction s as [|c t IH]; [done|]. cbn. destruct (p c); [|done].
  cbn. by rewrite IH.
Qed.

Lemma lspan_Forall (p : N -> bool) (s : jsstring) :
  Forall (fun c => p c = true) (lspan p s).
Proof.
  induction s as [|c t IH]; [constructor|]. cbn.
  destruct (p c) eqn:E; by constructor.
Qed.

Lemma match_id_here_sound (s emojiId : jsstring) :
  match_id_here s = Some emojiId ->
  s = js "-" ++ emojiId ++ js ".png"
  /\ emojiId <> [] /\ Forall (fun c => is_digit c = true) emojiId.
Proof.
  destruct s as [|c r]; [done|]. cbn [match_id_here].
  destruct (N.eqb_spec c Chr.hyphen) as [->|]; [|done]. cbn [andb].
  case_bool_decide as Hne; [done|]. cbn [negb andb].
  case_bool_decide as Hpng; [|done]. intros [= <-].
  split; [|split; [done|apply lspan_Forall]].
  change (Chr.hyphen :: r = Chr.hyphen :: (lspan is_digit r ++ js ".png")).
  f_equal. rewrite <- Hpng. symmetry. apply lspan_lstrip.
Qed.

(** X16: the file names in which the bootstrap finds an ID are exactly
    the names that end with a hyphen, a non-empty run of ASCII digits and
    [.png]; the ID found is that run. *)
Theorem match_id_characterized (file emojiId : jsstring) :
  match_id file = Some emojiId
  <-> (exists prefix, file = prefix ++ js "-" ++ emojiId ++ js ".png")
      /\ emojiId <> [] /\ Forall (fun c => is_digit c = true) emojiId.
Proof.
  split.
  - induction file as [|c t IH]; [done|]. rewrite match_id_unfold.
    destruct (match_id_here (c :: t)) as [d|] eqn:E.
    + intros [= ->]. apply match_id_here_sound in E as (-> & Hne & Hdig).
      split; [by exists []|done].
    + intros Hm. destruct (IH Hm) as ([prefix ->] & Hne & Hdig).
      split; [by exists (c :: prefix)|done].
  - intros ([prefix ->] & Hne & Hdig). by apply match_id_suffix.
Qed.

Section MoreBootstrapFacts.
Context {node : Host}.

Lemma ensureDir_existing dirPath st :
  host_exists dirPath (world st) = true -> ensureDir dirPath st = (Ret tt, st).
Proof. intros Hex. unfold ensureDir, bind, existsSync, ret. by rewrite Hex. Qed.

(** X17: [initCache] throws exactly when the base directory does not
    exist and [mkdirSync] throws; it then throws that error and leaves the
    state reached by the failed [mkdirSync]: nothing was scanned. *)
Theorem initCache_throws_iff customDir st e st' :
  initCache customDir st = (Throw e, st')
  <-> host_exists (resolveBaseDir customDir) (world st) = false
      /\ mkdirSync (resolveBaseDir customDir) st = (Throw e, st').
Proof.
  destruct (ensureDir (resolveBaseDir customDir) st) as [[[]|e1] st1] eqn:E.
  - destruct (initCache_spec _ _ _ E) as (st2 & -> & _).
    split; [done|]. intros [Hex Hmk].
    unfold ensureDir, bind, existsSync, ret in E. rewrite Hex in E.
    cbn in E. congruence.
  - rewrite (initCache_throws _ _ _ _ E).
    unfold ensureDir, bind, existsSync, ret in E.
    destruct (host_exists (resolveBaseDir customDir) (world st)); [done|].
    cbn in E. rewrite E. split.
    + by intros [= <- <-].
    + by intros [_ [= <- <-]].
Qed.

(** X18: [initCache] never fetches and never writes a file: its only
    possible effect on the host is the creation of the base directory; and
    when the base directory exists the world after the call is the world
    before it. *)
Theorem initCache_effects customDir st :
  exists evs,
    trace (snd (initCache customDir st)) = trace st ++ evs
    /\ io_events evs `prefix_of` [EvMkdir (resolveBaseDir customDir)]
    /\ (host_exists (resolveBaseDir customDir) (world st) = true ->
        world (snd (initCache customDir st)) = world st /\ io_events evs = []).
Proof.
  unfold initCache, ensureDir, bind, existsSync, ret.
  destruct (host_exists (resolveBaseDir customDir) (world st)) eqn:Hex; cbn [negb].
  - destruct (scan_spec (resolveBaseDir customDir) 0 st) as [[err|] ->];
      cbn [snd trace world console_error].
    + exists [EvConsoleError
                (js "[MessageEmojiCache] Failed to init cache from disk:") err].
      split; [done|]. split; [by eexists|done].
    + exists []. split; [by rewrite app_nil_r|]. split; [by eexists|done].
  - unfold mkdirSync, effect.
    destruct (host_mkdir (resolveBaseDir customDir) (world st)) as [[[]|e] w1];
      cbn [fst snd].
    + match goal with |- context [scan ?b ?c ?s] =>
        destruct (scan_spec b c s) as [[err|] ->] end;
        cbn [snd trace world console_error].
      * eexists. rewrite <- app_assoc. split; [reflexivity|].
        split; [by eexists|done].
      * eexists. split; [reflexivity|]. split; [by eexists|done].
    + eexists. split; [reflexivity|]. split; [by eexists|done].
Qed.

(** X19: running the bootstrap again on a base directory that exists
    returns the same count and adds nothing: the count is the number of
    matching files on disk, not the number of IDs learned by the call. *)
Theorem initCache_again customDir st n st1 :
  initCache customDir st = (Ret n, st1) ->
  host_exists (resolveBaseDir customDir) (world st1) = true ->
  exists st2,
    initCache customDir st1 = (Ret n, st2)
    /\ cachedEmojiIds st2 = cachedEmojiIds st1
    /\ world st2 = world st1.
Proof.
  intros Hrun Hex.
  destruct (ensureDir (resolveBaseDir customDir) st) as [[[]|e] st0] eqn:E.
  - destruct (initCache_spec _ _ _ E) as (st1' & Hrun' & Hids & Hw).
    rewrite Hrun in Hrun'. injection Hrun' as -> <-.
    destruct (initCache_spec customDir st1 st1 (ensureDir_existing _ _ Hex))
      as (st2 & Hrun2 & Hids2 & Hw2).
    exists st2. rewrite Hw in Hrun2, Hids2. split; [done|]. split; [|done].
    rewrite Hids2, Hids. set_solver.
  - rewrite (initCache_throws _ _ _ _ E) in Hrun. discriminate.
Qed.

(** X20: an ID that the bootstrap found is never downloaded: after
    [initCache] has returned, [cacheEmoji] for any ID among the scanned
    ones returns [cached = false] with the empty path and changes nothing,
    whatever the names, the directory and the size. *)
Theorem initCache_then_cacheEmoji customDir st n st1 emojiId :
  initCache customDir st = (Ret n, st1) ->
  emojiId ∈ scanned_ids (resolveBaseDir customDir) (world st1) ->
  forall emojiName guildName customDir' sz,
    cacheEmoji emojiId emojiName guildName customDir' sz st1
      = (Ret (mkResult false []), st1).
Proof.
  intros Hrun Hin emojiName guildName customDir' sz.
  apply cacheEmoji_tracked.
  destruct (ensureDir (resolveBaseDir customDir) st) as [[[]|e] st0] eqn:E.
  - destruct (initCache_spec _ _ _ E) as (st1' & Hrun' & Hids & Hw).
    rewrite Hrun in Hrun'. injection Hrun' as -> <-.
    rewrite Hids, <- Hw. set_solver.
  - rewrite (initCache_throws _ _ _ _ E) in Hrun. discriminate.
Qed.

Lemma guild_ids_complete baseDir guildDirs w guildDir files emojiId :
  (forall g, g ∈ guildDirs ->
     exists fs, host_readdir (join [baseDir; g]) w = Ret fs) ->
  guildDir ∈ guildDirs ->
  host_readdir (join [baseDir; guildDir]) w = Ret files ->
  emojiId ∈ omap match_id (map name files) ->
  emojiId ∈ guild_ids baseDir guildDirs w.
Proof.
  intros Hall Hin Hfiles Hid. induction guildDirs as [|g gs IH]; [by inversion Hin|].
  cbn [guild_ids]. destruct (Hall g) as [fs Hfs]; [by left|]. rewrite Hfs.
  apply elem_of_app. apply elem_of_cons in Hin as [->|Hin].
  - left. rewrite Hfs in Hfiles. by injection Hfiles as ->.
  - right. apply IH; [|done]. intros g' Hg'. apply Hall. by right.
Qed.

(** X21: what [cacheEmoji] stores, the bootstrap recovers.  When
    [initCache] returns and no listing threw, every entry of a guild
    directory whose name is the file name that [cacheEmoji] builds for
    some display name and an ID of ASCII digits puts that ID in the set. *)
Theorem initCache_recovers customDir st n st1 entries guildDir files
    emojiName emojiId :
  initCache customDir st = (Ret n, st1) ->
  host_readdir (resolveBaseDir customDir) (world st1) = Ret entries ->
  (forall d, d ∈ entries -> isDirectory d = true ->
     exists fs,
       host_readdir (join [resolveBaseDir customDir; name d]) (world st1) = Ret fs) ->
  mkDirent guildDir true ∈ entries ->
  host_readdir (join [resolveBaseDir customDir; guildDir]) (world st1) = Ret files ->
  emojiFileName emojiName emojiId ∈ map name files ->
  emojiId <> [] ->
  Forall (fun c => is_digit c = true) emojiId ->
  emojiId ∈ cachedEmojiIds st1.
Proof.
  intros Hrun Hbase Hall Hguild Hfiles Hfile Hne Hdig.
  assert (emojiId ∈ scanned_ids (resolveBaseDir customDir) (world st1)) as Hin.
  { unfold scanned_ids. rewrite Hbase.
    eapply guild_ids_complete; [| |exact Hfiles|].
    - intros g Hg. apply list_elem_of_fmap in Hg as (d & -> & Hd).
      apply list_elem_of_filter in Hd as [Hdir Hd]. by apply Hall.
    - apply list_elem_of_fmap. exists (mkDirent guildDir true). split; [done|].
      by apply list_elem_of_filter.
    - apply list_elem_of_omap. exists (emojiFileName emojiName emojiId).
      split; [done|]. by apply match_id_suffix. }
  destruct (ensureDir (resolveBaseDir customDir) st) as [[[]|e] st0] eqn:E.
  - destruct (initCache_spec _ _ _ E) as (st1' & Hrun' & Hids & Hw).
    rewrite Hrun in Hrun'. injection Hrun' as -> <-.
    rewrite Hids, <- Hw. set_solver.
  - rewrite (initCache_throws _ _ _ _ E) in Hrun. discriminate.
Qed.

End MoreBootstrapFacts.

(** ** Extraction of emojis from a message *)

Lemma is_word_range (c : N) :
  is_word c = true ->
  (48 <= c <= 57) \/ (65 <= c <= 90) \/ (97 <= c <= 122) \/ c = 95.
Proof.
  unfold is_word, is_digit, Chr.underscore.
  rewrite !orb_true_iff, !andb_true_iff, !N.leb_le, N.eqb_eq. lia.
Qed.

Ltac decide_class :=
  cbv delta [is_unsafe is_space is_dot is_digit is_word Chr.lt Chr.gt Chr.colon
             Chr.dquote Chr.slash Chr.backslash Chr.pipe Chr.question Chr.star
             Chr.dot Chr.underscore Chr.tilde] beta;
  repeat match goal with
    | |- context [N.eqb ?a ?b] =>
        rewrite (proj2 (N.eqb_neq a b)) by lia
    | |- context [N.leb ?a ?b] =>
        first [ rewrite (proj2 (N.leb_le a b)) by lia
              | rewrite (proj2 (N.leb_gt a b)) by lia ]
    end;
  reflexivity.

Lemma is_word_plain (c : N) :
  is_word c = true ->
  is_unsafe c = false /\ is_space c = false /\ is_dot c = false.
Proof.
  intros [H|[H|[H|H]]]%is_word_range; repeat split; decide_class.
Qed.

Lemma word_clean (s : jsstring) :
  s <> [] -> Forall (fun c => is_word c = true) s ->
  clean s /\ last s <> Some Chr.dot.
Proof.
  intros Hne Hw. rewrite Forall_forall in Hw. split; [split|].
  - apply Forall_forall. intros c Hc. by apply is_word_plain, Hw.
  - done.
  - intros c Hc. apply is_word_plain, Hw. destruct s; [done|].
    injection Hc as <-. by left.
  - intros c Hc. apply is_word_plain, Hw. by apply last_Some_elem_of.
  - intros Hd. apply last_Some_elem_of, Hw in Hd. discriminate.
Qed.

Lemma run1_Some (p : N -> bool) (s run rest : jsstring) :
  run1 p s = Some (run, rest) ->
  run <> [] /\ Forall (fun c => p c = true) run /\ s = run ++ rest.
Proof.
  unfold run1. pose proof (lspan_Forall p s) as HF.
  pose proof (lspan_lstrip p s) as Happ.
  destruct (lspan p s) as [|c t]; [done|]. intros [= <- <-]. done.
Qed.

Lemma expect_Some (c : N) (s rest : jsstring) :
  expect c s = Some rest -> s = c :: rest.
Proof.
  destruct s as [|x r]; [done|]. cbn.
  destruct (N.eqb_spec x c) as [->|]; [|done]. by intros [= ->].
Qed.

Lemma match_emoji_here_sound (s name emojiId : jsstring) (len : nat) :
  match_emoji_here s = Some (name, emojiId, len) ->
  name <> [] /\ Forall (fun c => is_word c = true) name
  /\ emojiId <> [] /\ Forall (fun c => is_digit c = true) emojiId.
Proof.
  unfold match_emoji_here. intros Hm.
  repeat match type of Hm with
    | (_ ≫= _) = Some _ =>
        apply bind_Some in Hm as (? & ? & Hm)
    | (let '(_, _) := ?x in _) = Some _ => destruct x
    end.
  injection Hm as <- <- _.
  repeat match goal with
    | H : run1 _ _ = Some _ |- _ => apply run1_Some in H as (? & ? & ?)
    end.
  done.
Qed.

(** The invariant of the extraction loop: the IDs collected so far are
    pairwise distinct and all seen, and every element is well formed. *)
Record extracted (guildName : jsstring) (seen : gset jsstring)
    (emojis : list Emoji) : Prop := mkExtracted {
  extracted_nodup : NoDup (emoji_id <$> emojis);
  extracted_seen : forall e, e ∈ emojis -> emoji_id e ∈ seen;
  extracted_wf : forall e, e ∈ emojis ->
      emoji_id e <> [] /\ Forall (fun c => is_digit c = true) (emoji_id e)
      /\ emoji_name e <> [] /\ Forall (fun c => is_word c = true) (emoji_name e)
      /\ emoji_guildName e = guildName;
}.

Lemma extract_loop_invariant guildName s skip seen emojis :
  extracted guildName seen emojis ->
  exists seen', extracted guildName seen' (extract_loop guildName s skip seen emojis).
Proof.
  revert skip seen emojis. induction s as [|c t IH]; intros skip seen emojis Hinv.
  - by exists seen.
  - cbn [extract_loop]. destruct skip as [|k]; [|by apply IH].
    destruct (match_emoji_here (c :: t)) as [[[name emojiId] len]|] eqn:E;
      [|by apply IH].
    case_bool_decide as Hseen; [by apply IH|]. apply IH.
    apply match_emoji_here_sound in E as (Hn & Hw & Hi & Hd).
    destruct Hinv as [Hnd Hs Hwf]. split.
    + rewrite fmap_app. apply NoDup_app. split; [done|]. split.
      * intros x Hx ->%list_elem_of_singleton.
        apply list_elem_of_fmap in Hx as (e & He & Hin). apply Hseen.
        cbn in He. rewrite He. by apply Hs.
      * apply NoDup_singleton.
    + intros e [He|He%list_elem_of_singleton]%elem_of_app.
      * apply Hs in He. set_solver.
      * subst e. cbn. set_solver.
    + intros e [He|He%list_elem_of_singleton]%elem_of_app;
        [by apply Hwf|by subst e].
Qed.

Lemma extractEmojisFromContent_extracted content guildName :
  exists seen,
    extracted guildName seen (extractEmojisFromContent content guildName).
Proof.
  apply extract_loop_invariant. split.
  - constructor.
  - intros e He. by inversion He.
  - intros e He. by inversion He.
Qed.

(** X22: every emoji that [extractEmojisFromContent] returns has a
    non-empty ID of ASCII digits, a non-empty name of word characters and
    the guild name that was passed in. *)
Theorem extractEmojisFromContent_wellformed content guildName e :
  e ∈ extractEmojisFromContent content guildName ->
  emoji_id e <> [] /\ Forall (fun c => is_digit c = true) (emoji_id e)
  /\ emoji_name e <> [] /\ Forall (fun c => is_word c = true) (emoji_name e)
  /\ emoji_guildName e = guildName.
Proof.
  destruct (extractEmojisFromContent_extracted content guildName) as [seen [_ _ Hwf]].
  apply Hwf.
Qed.

(** X23: the IDs of the emojis extracted from one message are pairwise
    distinct: an emoji that occurs several times is returned once. *)
Theorem extractEmojisFromContent_distinct content guildName :
  NoDup (emoji_id <$> extractEmojisFromContent content guildName).
Proof.
  by destruct (extractEmojisFromContent_extracted content guildName) as [seen []].
Qed.

(** X24: the file of an extracted emoji is named by its name and ID as
    they are (the sanitizer leaves a name of word characters unchanged),
    and the bootstrap reads the ID back from that file name. *)
Theorem extracted_emoji_file content guildName e :
  e ∈ extractEmojisFromContent content guildName ->
  emojiFileName (emoji_name e) (emoji_id e)
    = emoji_name e ++ js "-" ++ emoji_id e ++ js ".png"
  /\ match_id (emojiFileName (emoji_name e) (emoji_id e)) = Some (emoji_id e).
Proof.
  intros He.
  destruct (extractEmojisFromContent_extracted content guildName) as [seen [_ _ Hwf]].
  destruct (Hwf e He) as (Hi & Hd & Hn & Hw & _).
  destruct (word_clean _ Hn Hw) as [Hc Hl].
  unfold emojiFileName. rewrite (sanitizeName_clean_id _ Hc Hl).
  split; [done|]. by apply match_id_suffix.
Qed.

Lemma extract_loop_plain guildName pre s seen emojis :
  (Chr.lt ∉ pre) ->
  extract_loop guildName (pre ++ s) 0 seen emojis
    = extract_loop guildName s 0 seen emojis.
Proof.
  induction pre as [|c t IH]; [done|]. intros Hno.
  cbn [app extract_loop].
  replace (match_emoji_here (c :: t ++ s)) with (@None (jsstring * jsstring * nat)).
  - apply IH. intros Hin. apply Hno. by right.
  - unfold match_emoji_here. cbn [expect].
    destruct (N.eqb_spec c Chr.lt) as [->|]; [|done].
    destruct Hno. by left.
Qed.

Lemma extract_loop_skip guildName s skip seen emojis :
  extract_loop guildName s skip seen emojis
    = extract_loop guildName (drop skip s) 0 seen emojis.
Proof.
  revert skip. induction s as [|c t IH]; intros [|k]; try done.
  cbn [extract_loop drop]. apply IH.
Qed.

Lemma run1_run (p : N -> bool) (run rest : jsstring) (c : N) :
  run <> [] -> Forall (fun d => p d = true) run -> p c = false ->
  run1 p (run ++ c :: rest) = Some (run, c :: rest).
Proof.
  intros Hne Hrun Hc. unfold run1.
  destruct (lspan_run p run rest c Hrun Hc) as [-> ->]. by destruct run.
Qed.

Lemma match_emoji_here_text animated name emojiId post :
  name <> [] -> Forall (fun c => is_word c = true) name ->
  emojiId <> [] -> Forall (fun c => is_digit c = true) emojiId ->
  match_emoji_here (emoji_text animated name emojiId ++ post)
    = Some (name, emojiId, length (emoji_text animated name emojiId)).
Proof.
  intros Hn Hw Hi Hd.
  assert (emoji_text animated name emojiId ++ post
          = Chr.lt :: (if animated then [97] else [])
              ++ Chr.colon :: name ++ Chr.colon :: emojiId ++ Chr.gt :: post)
    as Ht.
  { unfold emoji_text. rewrite <- !app_assoc. reflexivity. }
  assert (length (emoji_text animated name emojiId ++ post)
          = (length (emoji_text animated name emojiId) + length post)%nat) as Hlen
    by apply length_app.
  unfold match_emoji_here. rewrite Hlen, Ht. clear Ht Hlen.
  destruct animated; cbn -[run1 length emoji_text];
    rewrite (run1_run is_word name _ Chr.colon Hn Hw eq_refl);
    cbn -[run1 length emoji_text];
    rewrite (run1_run is_digit emojiId _ Chr.gt Hi Hd eq_refl);
    cbn -[length emoji_text]; do 3 f_equal; lia.
Qed.

(** X25: a message that contains one custom emoji, static or animated,
    between two pieces of text without an opening angle bracket yields
    exactly this emoji: the ID and the name of the text and the guild name
    that was passed in. *)
Theorem extractEmojisFromContent_single animated name emojiId pre post guildName :
  name <> [] -> Forall (fun c => is_word c = true) name ->
  emojiId <> [] -> Forall (fun c => is_digit c = true) emojiId ->
  (Chr.lt ∉ pre) -> (Chr.lt ∉ post) ->
  extractEmojisFromContent (pre ++ emoji_text animated name emojiId ++ post) guildName
    = [mkEmoji emojiId name guildName].
Proof.
  intros Hn Hw Hi Hd Hpre Hpost. unfold extractEmojisFromContent.
  rewrite extract_loop_plain by done.
  pose proof (match_emoji_here_text animated name emojiId post Hn Hw Hi Hd) as Hm.
  assert (exists rest, emoji_text animated name emojiId = Chr.lt :: rest) as [rest Ht]
    by (by eexists).
  rewrite Ht in *. cbn [app extract_loop]. cbn [app] in Hm. rewrite Hm.
  rewrite bool_decide_eq_false_2 by set_solver.
  rewrite extract_loop_skip. cbn [length]. rewrite Nat.sub_1_r. cbn [Nat.pred].
  rewrite drop_app_length.
  rewrite <- (app_nil_r post). by rewrite extract_loop_plain.
Qed.

Lemma extractEmojisFromContent_single_witness :
  extractEmojisFromContent (js "gg <a:dance:42> !") (js "G")
    = [mkEmoji (js "42") (js "dance") (js "G")].
Proof.
  apply (extractEmojisFromContent_single true (js "dance") (js "42")
           (js "gg ") (js " !") (js "G")).
  - discriminate.
  - repeat constructor.
  - discriminate.
  - repeat constructor.
  - intros Hin. by repeat (apply elem_of_cons in Hin as [Hin|Hin]; [discriminate|]);
      inversion Hin.
  - intros Hin. by repeat (apply elem_of_cons in Hin as [Hin|Hin]; [discriminate|]);
      inversion Hin.
Defined.

(** X26: a message without an opening angle bracket yields no emoji. *)
Theorem extractEmojisFromContent_plain content guildName :
  (Chr.lt ∉ content) -> extractEmojisFromContent content guildName = [].
Proof.
  intros Hno. unfold extractEmojisFromContent.
  rewrite <- (app_nil_r content). by rewrite extract_loop_plain.
Qed.

Lemma extractEmojisFromContent_plain_witness :
  extractEmojisFromContent (js "gg") (js "G") = [].
Proof.
  apply (extractEmojisFromContent_plain (js "gg") (js "G")).
  intros Hin. by repeat (apply elem_of_cons in Hin as [Hin|Hin]; [discriminate|]);
    inversion Hin.
Defined.

(** ** The plugin *)

Section PluginFacts.
Context {node : Host}.
Variable getChannel : jsstring -> option Channel.
Variable getGuild : jsstring -> option Guild.
Variable DEFAULT REPLY : N.

(** X27: [start] never throws.  It runs [initCache] on the configured
    directory (the default one when the setting is empty) and logs one
    line: the count when [initCache] returns, and (this is where the
    failure to create the base directory ends up) the error when it
    throws. *)
Theorem start_never_throws settings ps :
  exists line,
    start settings ps
      = (Ret tt,
         mkPlugin (snd (initCache (cacheDirSetting settings) (native ps)))
           (logger ps ++ [line]))
    /\ line =
       match fst (initCache (cacheDirSetting settings) (native ps)) with
       | Ret count =>
           LogInfo (js "Initialized emoji cache with "
                      ++ number_to_string (N.of_nat count)
                      ++ js " existing emojis.")
       | Throw e => LogError (js "Failed to initialize emoji cache:") e
       end.
Proof.
  unfold start, p_try, p_bind, invoke, logger_info, logger_error.
  destruct (initCache (cacheDirSetting settings) (native ps)) as [[count|e] st'];
    cbn [fst snd native logger]; by eexists.
Qed.

Lemma resolveGuildName_ignored optimistic message channelId :
  optimistic = false ->
  (message_type message = DEFAULT \/ message_type message = REPLY) ->
  message_state message <> Some (js "SENDING") ->
  (Chr.lt ∈ message_content message) ->
  ignored getChannel getGuild DEFAULT REPLY optimistic message channelId ->
  resolveGuildName getChannel getGuild channelId = None
  \/ resolveGuildName getChannel getGuild channelId = Some [].
Proof.
  intros Ho Ht Hs Hc Hig. unfold resolveGuildName.
  destruct Hig as [H|H1 H2|H|H|ch H1 [H2|H2]|ch gid H1 H2 H3|ch gid H1 H2 H3|H];
    try congruence; try tauto.
  - rewrite H. by left.
  - rewrite H1, H2. by left.
  - rewrite H1, H2. by left.
  - rewrite H1, H2, H3. destruct gid; by left.
  - rewrite H1, H2, H3. destruct gid; [by left|by right].
Qed.

(** X28: the handler does nothing, and does not throw, for an optimistic
    message, a message that is neither a default message nor a reply, a
    message that is being sent, a channel that is unknown or has no guild
    (a direct message), a guild that is unknown or has an empty name, and
    a content without an opening angle bracket. *)
Theorem MESSAGE_CREATE_ignored settings optimistic message channelId ps :
  ignored getChannel getGuild DEFAULT REPLY optimistic message channelId ->
  MESSAGE_CREATE getChannel getGuild DEFAULT REPLY settings optimistic message
    channelId ps = (Ret tt, ps).
Proof.
  intros Hig. unfold MESSAGE_CREATE, p_ret.
  destruct optimistic; [done|].
  destruct (N.eqb_spec (message_type message) DEFAULT) as [Hd|Hd];
    destruct (N.eqb_spec (message_type message) REPLY) as [Hr|Hr];
    cbn [negb andb]; try done;
    (case_bool_decide as Hs; [done|]);
    (destruct (decide (Chr.lt ∈ message_content message)) as [Hc|Hc];
     [ destruct (resolveGuildName_ignored false message channelId eq_refl
                   ltac:(tauto) Hs Hc Hig) as [-> | ->]; done
     | destruct (resolveGuildName getChannel getGuild channelId) as [[|c g]|];
         try done;
       destruct (message_content message) as [|c' t] eqn:Econt; [done|];
       unfold extractEmojisFromContent;
       rewrite <- (app_nil_r (c' :: t)), extract_loop_plain by done; done ]).
Qed.

(** X29: the handler never throws, whatever the native side does; it
    removes no ID from the set, and every ID that it adds is the ID of an
    emoji extracted from the content of the message for the guild of the
    channel, so a non-empty string of ASCII digits. *)
Theorem MESSAGE_CREATE_safe settings optimistic message channelId ps :
  exists ps',
    MESSAGE_CREATE getChannel getGuild DEFAULT REPLY settings optimistic message
      channelId ps = (Ret tt, ps')
    /\ cachedEmojiIds (native ps) ⊆ cachedEmojiIds (native ps')
    /\ (forall emojiId,
          emojiId ∈ cachedEmojiIds (native ps') ->
          emojiId ∉ cachedEmojiIds (native ps) ->
          exists guildName e,
            resolveGuildName getChannel getGuild channelId = Some guildName
            /\ e ∈ extractEmojisFromContent (message_content message) guildName
            /\ emoji_id e = emojiId).
Proof.
  assert (exists ps',
            (Ret tt, ps) = (@Ret Exn unit tt, ps')
            /\ cachedEmojiIds (native ps) ⊆ cachedEmojiIds (native ps')
            /\ (forall emojiId,
                  emojiId ∈ cachedEmojiIds (native ps') ->
                  emojiId ∉ cachedEmojiIds (native ps) ->
                  exists guildName e,
                    resolveGuildName getChannel getGuild channelId = Some guildName
                    /\ e ∈ extractEmojisFromContent (message_content message)
                            guildName
                    /\ emoji_id e = emojiId)) as Hsame.
  { exists ps. split; [done|]. split; [done|]. by intros emojiId Hin Hout. }
  unfold MESSAGE_CREATE, p_ret.
  destruct optimistic; [exact Hsame|].
  destruct (negb _ && negb _); [exact Hsame|].
  case_bool_decide; [exact Hsame|].
  destruct (resolveGuildName getChannel getGuild channelId) as [[|c g]|];
    [exact Hsame| |exact Hsame].
  destruct (message_content message) as [|c' t]; [exact Hsame|].
  clear Hsame.
  set (guildName := c :: g). set (content := c' :: t).
  destruct (extractEmojisFromContent content guildName) as [|e0 es] eqn:Ex.
  { exists ps. split; [done|]. split; [done|]. by intros emojiId Hin Hout. }
  rewrite <- Ex. clear Ex.
  set (emojis := extractEmojisFromContent content guildName).
  unfold p_try, p_bind, invoke. rewrite cacheEmojis_run. cbn [fst snd].
  pose proof (run_each_grows emojis (cacheDirSetting settings)
                (Some (emojiSize settings)) (native ps)) as Hgrow.
  destruct (run_each_bounds emojis (cacheDirSetting settings)
              (Some (emojiSize settings)) (native ps)) as [_ Hnew].
  assert (forall emojiId,
            emojiId ∈ cachedEmojiIds
              (snd (run_each emojis (cacheDirSetting settings)
                      (Some (emojiSize settings)) (native ps))) ->
            emojiId ∉ cachedEmojiIds (native ps) ->
            exists guildName' e,
              Some guildName = Some guildName'
              /\ e ∈ extractEmojisFromContent content guildName'
              /\ emoji_id e = emojiId) as Hids.
  { intros emojiId Hin Hout. apply Hnew in Hin.
    apply elem_of_union in Hin as [Hin|Hin]; [done|].
    apply elem_of_list_to_set, list_elem_of_fmap in Hin as (e & -> & He).
    by exists guildName, e. }
  unfold logger_info, p_ret.
  destruct (0 <? _)%nat; cbn [native]; eauto.
Qed.

End PluginFacts.

Lemma MESSAGE_CREATE_ignored_witness :
  MESSAGE_CREATE (fun _ => Some (mkChannel None)) (fun _ => None) 0 19
    (mkSettings [] 128) false (mkMessage 0 None (js "<:pog:10>")) (js "dm")
    (mkPlugin no_network [])
  = (Ret tt, mkPlugin no_network []).
Proof.
  apply (MESSAGE_CREATE_ignored (fun _ => Some (mkChannel None)) (fun _ => None)
           0 19 (mkSettings [] 128) false (mkMessage 0 None (js "<:pog:10>"))
           (js "dm") (mkPlugin no_network [])).
  eapply ignored_direct_message; [reflexivity|by left].
Defined.

(** ** The further properties on the simulated host *)

Import Cases.

Lemma resolveBaseDir_blank_witness :
  resolveBaseDir (Some (js "  ")) = join [DATA_DIR; js "emotes"]
  /\ resolveBaseDir (Some (js "  ")) = resolveBaseDir None.
Proof. apply (resolveBaseDir_blank (js "  ")). reflexivity. Defined.

Lemma resolveBaseDir_custom_witness :
  resolveBaseDir (Some (js " /tmp/emotes/../x ")) = js " /tmp/emotes/../x ".
Proof.
  apply (resolveBaseDir_custom (js " /tmp/emotes/../x ")); discriminate.
Defined.

Lemma resolveBaseDir_home_witness :
  resolveBaseDir (Some (js "~/emotes")) = js "/home/user/emotes".
Proof.
  change (resolveBaseDir (Some (Chr.tilde :: js "/emotes"))
          = default [] HOME ++ js "/emotes").
  apply (resolveBaseDir_home (js "/emotes")).
  intros Hin. vm_compute in Hin.
  by repeat (apply elem_of_cons in Hin as [Hin|Hin]; [discriminate|]);
    inversion Hin.
Defined.

Lemma cacheEmoji_tracked_noop_witness :
  pog tracked = (Ret (mkResult false []), tracked).
Proof.
  apply (cacheEmoji_tracked_noop (js "10") (js "Pog") (js "My Server") root
           (Some 128) tracked).
  apply elem_of_singleton. reflexivity.
Defined.

Lemma cacheEmoji_success_witness :
  pog (empty_root png)
    = (Ret (mkResult true (filePathOf root (js "My Server") (js "Pog") (js "10"))),
       mkState ({[js "10"]} ∪ cachedEmojiIds (empty_root png))
         (world written) (trace written))
  /\ trace written
     = trace ensured
         ++ [EvFetch (buildEmojiUrl (js "10") (default 128 (Some 128)));
             EvWrite (filePathOf root (js "My Server") (js "Pog") (js "10")) png].
Proof.
  apply (cacheEmoji_success (js "10") (js "Pog") (js "My Server") root
           (Some 128) (empty_root png) ensured png fetched written).
  - apply not_elem_of_empty.
  - reflexivity.
  - vm_compute. reflexivity.
  - vm_compute. reflexivity.
  - vm_compute. reflexivity.
Defined.

Lemma cacheEmoji_at_most_once_witness :
  cacheEmoji (js "10") (js "Other") (js "Elsewhere") None None file_gone
  = (Ret (mkResult false []), file_gone).
Proof.
  apply (cacheEmoji_at_most_once (js "10") (js "Pog") (js "My Server") root
           (Some 128) (empty_root png)
           (mkResult true (js "root/My Server/Pog-10.png"))
           (snd (pog (empty_root png))) file_gone).
  - apply run_eq. vm_compute. reflexivity.
  - discriminate.
  - eapply rtc_l; [apply step_initCache|].
    eapply rtc_l; [apply step_world|]. apply rtc_refl.
Defined.

Lemma cacheEmojis_all_tracked_witness :
  cacheEmojis batch root (Some 128) all_tracked = (Ret 0%nat, all_tracked).
Proof.
  apply (cacheEmojis_all_tracked batch root (Some 128) all_tracked).
  intros emoji Hin.
  repeat (apply elem_of_cons in Hin as [->|Hin]; [vm_compute; set_solver|]).
  by inversion Hin.
Defined.

Lemma initCache_again_witness :
  exists st2,
    initCache root (snd (initCache root twice)) = (Ret 2%nat, st2)
    /\ cachedEmojiIds st2 = cachedEmojiIds (snd (initCache root twice))
    /\ world st2 = world (snd (initCache root twice)).
Proof.
  apply (initCache_again root twice 2 (snd (initCache root twice))).
  - vm_compute. reflexivity.
  - reflexivity.
Defined.

Lemma initCache_then_cacheEmoji_witness :
  cacheEmoji (js "10") (js "Pog") (js "My Server") root (Some 128)
    (snd (initCache root twice))
  = (Ret (mkResult false []), snd (initCache root twice)).
Proof.
  apply (initCache_then_cacheEmoji root twice 2 (snd (initCache root twice))
           (js "10")).
  - vm_compute. reflexivity.
  - vm_compute. by left.
Defined.

Lemma initCache_recovers_witness :
  js "10" ∈ cachedEmojiIds (snd (initCache root twice)).
Proof.
  apply (initCache_recovers root twice 2 (snd (initCache root twice))
           [mkDirent (js "A") true; mkDirent (js "B") true]
           (js "B")
           [mkDirent (js "pog-10.png") false; mkDirent (js "weird.png") false]
           (js "pog") (js "10")).
  - vm_compute. reflexivity.
  - vm_compute. reflexivity.
  - intros d Hd _.
    repeat (apply elem_of_cons in Hd as [->|Hd];
            [eexists; vm_compute; reflexivity|]).
    by inversion Hd.
  - right. left.
  - vm_compute. reflexivity.
  - vm_compute. by left.
  - discriminate.
  - repeat constructor.
Defined.

Lemma extractEmojisFromContent_wellformed_witness :
  js "42" <> [] /\ Forall (fun c => is_digit c = true) (js "42")
  /\ js "dance" <> [] /\ Forall (fun c => is_word c = true) (js "dance")
  /\ js "G" = js "G".
Proof.
  apply (extractEmojisFromContent_wellformed content (js "G")
           (mkEmoji (js "42") (js "dance") (js "G"))).
  vm_compute. by left.
Defined.

Lemma extracted_emoji_file_witness :
  emojiFileName (js "pog") (js "10") = js "pog" ++ js "-" ++ js "10" ++ js ".png"
  /\ match_id (emojiFileName (js "pog") (js "10")) = Some (js "10").
Proof.
  apply (extracted_emoji_file content (js "G")
           (mkEmoji (js "10") (js "pog") (js "G"))).
  vm_compute. right. by left.
Defined.
